(** * chaoswm: the mapping filter and the mutation operations of the
      WireMock driver (chaoswm/driver.py) and its actions (chaoswm/actions.py)

    The Python code is embedded shallowly.  JSON-like Python objects are the
    inductive type [value]; a Python exception is the [Raise] branch of
    [result]; the conversation with the admin API is an explicit [World]
    that records every call and answers it through an oracle. *)

From Stdlib Require Import ZArith NArith Ascii String.
From stdpp Require Import base option list strings gmap.

Local Open Scope string_scope.
Local Open Scope list_scope.
Local Open Scope Z_scope.

(** ** Python objects *)

Module Py.

(** The objects the driver handles are what [json] produces and consumes:
    [None], booleans, integers, strings, lists and dicts with string keys.
    A dict is the list of its items in insertion order.  Floats are not
    modelled. *)
#[warnings="-register-all"] Inductive value : Type :=
| VNone
| VBool (b : bool)
| VInt (n : Z)
| VStr (s : string)
| VList (xs : list value)
| VDict (items : list (string * value)).

(** The exceptions the modelled code can raise. *)
Inductive exn : Type :=
| AttributeError
| KeyError
| IndexError
| TypeError
| ValueError
| RequestException.

Inductive result (A : Type) : Type :=
| Ok (a : A)
| Raise (e : exn).
Arguments Ok {A} a.
Arguments Raise {A} e.

#[global] Instance result_bind : MBind result := λ A B k r,
  match r with
  | Ok a => k a
  | Raise e => Raise e
  end.

#[global] Instance result_ret : MRet result := λ A a, Ok a.

(** [d.get(key)] on the items of a dict, before the [None] default. *)
Fixpoint lookup_item (key : string) (items : list (string * value)) : option value :=
  match items with
  | [] => None
  | (k, v) :: rest => if String.eqb k key then Some v else lookup_item key rest
  end.

(** [d.keys()] as a set: the key view of a dict is set-like. *)
Definition keys (items : list (string * value)) : gset string :=
  list_to_set (items.*1).

(** [d[key] = v]: an existing key keeps its place, a new one goes last. *)
Fixpoint set_item (key : string) (v : value) (items : list (string * value))
  : list (string * value) :=
  match items with
  | [] => [(key, v)]
  | (k, w) :: rest =>
      if String.eqb k key then (k, v) :: rest else (k, w) :: set_item key v rest
  end.

(** [a == b].  A bool compares with an int as 0 or 1; lists compare
    element by element; dicts compare as maps, whatever the order. *)
Fixpoint py_eq (a b : value) {struct a} : bool :=
  match a, b with
  | VNone, VNone => true
  | VBool x, VBool y => Bool.eqb x y
  | VBool x, VInt n => Z.b2z x =? n
  | VInt n, VBool y => n =? Z.b2z y
  | VInt n, VInt m => n =? m
  | VStr s, VStr t => String.eqb s t
  | VList xs, VList ys =>
      (fix go (xs ys : list value) {struct xs} : bool :=
         match xs, ys with
         | [], [] => true
         | x :: xs', y :: ys' => py_eq x y && go xs' ys'
         | _, _ => false
         end) xs ys
  | VDict d, VDict e =>
      (size (keys d) =? size (keys e))%nat &&
      (fix go (d : list (string * value)) {struct d} : bool :=
         match d with
         | [] => true
         | (k, v) :: d' =>
             match lookup_item k e with
             | Some w => py_eq v w && go d'
             | None => false
             end
         end) d
  | _, _ => false
  end.

(** [x in xs] for a list [xs]. *)
Definition py_in (x : value) (xs : list value) : bool :=
  existsb (py_eq x) xs.

(** Truth value of an object, as [if obj:] tests it. *)
Definition truthy (v : value) : bool :=
  match v with
  | VNone => false
  | VBool b => b
  | VInt n => negb (n =? 0)
  | VStr s => negb (String.eqb s "")
  | VList xs => negb (Nat.eqb (length xs) 0)
  | VDict d => negb (Nat.eqb (length d) 0)
  end.

(** [obj.get(key)]: only a dict has the method. *)
Definition get (obj : value) (key : string) : result value :=
  match obj with
  | VDict d => Ok (default VNone (lookup_item key d))
  | _ => Raise AttributeError
  end.

(** [obj[key]] for a string key. *)
Definition getitem (obj : value) (key : string) : result value :=
  match obj with
  | VDict d =>
      match lookup_item key d with
      | Some v => Ok v
      | None => Raise KeyError
      end
  | _ => Raise TypeError
  end.

(** [obj[key] = v] for a string key: the object after the assignment. *)
Definition setitem (obj : value) (key : string) (v : value) : result value :=
  match obj with
  | VDict d => Ok (VDict (set_item key v d))
  | _ => Raise TypeError
  end.

(** [obj[outer][inner] = v]: the inner dict is changed in place, so [obj]
    sees the change under [outer]. *)
Definition setitem2 (obj : value) (outer inner : string) (v : value) : result value :=
  sub ← getitem obj outer;
  sub' ← setitem sub inner v;
  setitem obj outer sub'.

(** [obj.keys()]. *)
Definition keys_of (obj : value) : result (list (string * value)) :=
  match obj with
  | VDict d => Ok d
  | _ => Raise AttributeError
  end.

(** [xs[i]] for a list and a non-negative index. *)
Definition index (xs : list value) (i : nat) : result value :=
  match xs !! i with
  | Some v => Ok v
  | None => Raise IndexError
  end.

(** [len(obj)]. *)
Definition len (obj : value) : result Z :=
  match obj with
  | VList xs => Ok (Z.of_nat (length xs))
  | VDict d => Ok (Z.of_nat (length d))
  | VStr s => Ok (Z.of_nat (String.length s))
  | _ => Raise TypeError
  end.

(** [obj.append(x)]: only a list has the method. *)
Definition append (obj x : value) : result value :=
  match obj with
  | VList xs => Ok (VList (xs ++ [x]))
  | _ => Raise AttributeError
  end.

(** [obj is None]. *)
Definition is_none (obj : value) : bool :=
  match obj with
  | VNone => true
  | _ => false
  end.

(** *** [int(obj)]

    A string is the bytes of its UTF-8 encoding.  On a string of ASCII
    characters: surrounding white space is dropped, one sign is allowed,
    then decimal digits, with single underscores between digits; a string
    with more digits than the interpreter allows is refused.  What [int]
    makes of a string with a character beyond ASCII depends on the Unicode
    tables of the interpreter, which say what a digit and what white space
    is; it is taken from the interpreter. *)

(** What of [int] lies with the interpreter and not with the code: the
    limit on the digits of a string ([sys.get_int_max_str_digits()]: 0 for
    no limit, else 640 at least, 4300 when left alone), and the value, if
    any, of a string with a character beyond ASCII. *)
Class Interpreter : Type := {
  int_max_str_digits : nat;
  int_max_str_digits_allowed :
    int_max_str_digits = 0%nat ∨ (640 ≤ int_max_str_digits)%nat;
  int_beyond_ascii : string → option Z
}.

Fixpoint is_ascii_string (s : string) : bool :=
  match s with
  | String a rest => (N_of_ascii a <? 128)%N && is_ascii_string rest
  | EmptyString => true
  end.

Definition is_space (a : ascii) : bool :=
  let n := N_of_ascii a in
  ((9 <=? n) && (n <=? 13) || (n =? 32))%N.

Definition digit_of (a : ascii) : option Z :=
  let n := N_of_ascii a in
  if ((48 <=? n) && (n <=? 57))%N then Some (Z.of_N n - 48) else None.

Fixpoint lstrip (s : string) : string :=
  match s with
  | String a rest => if is_space a then lstrip rest else s
  | EmptyString => s
  end.

Fixpoint all_space (s : string) : bool :=
  match s with
  | String a rest => is_space a && all_space rest
  | EmptyString => true
  end.

(** The digits of a literal; [after_digit] says that the last character
    read was a digit, which is when an underscore, trailing white space or
    the end of the string may follow. *)
Fixpoint digits (s : string) (acc : Z) (after_digit : bool) : option Z :=
  match s with
  | EmptyString => if after_digit then Some acc else None
  | String a rest =>
      match digit_of a with
      | Some d => digits rest (10 * acc + d) true
      | None =>
          if after_digit && Ascii.eqb a "_" then digits rest acc false
          else if after_digit && is_space a && all_space rest then Some acc
          else None
      end
  end.

(** The number of digits in a string. *)
Fixpoint digit_count (s : string) : nat :=
  match s with
  | String a rest =>
      (match digit_of a with Some _ => 1 | None => 0 end + digit_count rest)%nat
  | EmptyString => 0
  end.

(** [n] digits are more than the limit [max_digits] allows. *)
Definition exceeds (max_digits n : nat) : bool :=
  negb (max_digits =? 0)%nat && (max_digits <? n)%nat.

(** [int] on a string of ASCII characters, under a limit on its digits. *)
Definition int_of_string (max_digits : nat) (s : string) : option Z :=
  if exceeds max_digits (digit_count s) then None
  else
    match lstrip s with
    | String "-" rest => Z.opp <$> digits rest 0 false
    | String "+" rest => digits rest 0 false
    | t => digits t 0 false
    end.

Definition int {interpreter : Interpreter} (obj : value) : result Z :=
  match obj with
  | VInt n => Ok n
  | VBool b => Ok (Z.b2z b)
  | VStr s =>
      match (if is_ascii_string s then int_of_string int_max_str_digits s
             else int_beyond_ascii s) with
      | Some n => Ok n
      | None => Raise ValueError
      end
  | _ => Raise TypeError
  end.

(** [del d[key]] on the items of a dict. *)
Definition del_item (key : string) (items : list (string * value))
  : list (string * value) :=
  List.filter (λ kv, negb (String.eqb kv.1 key)) items.

(** [s in t] for two strings: [s] occurs in [t]. *)
Fixpoint is_substring (s t : string) : bool :=
  String.prefix s t ||
  match t with
  | String _ rest => is_substring s rest
  | EmptyString => false
  end.

(** [key in obj] for a string [key]: a key of a dict, an element of a
    list, a part of a string. *)
Definition contains (obj : value) (key : string) : result bool :=
  match obj with
  | VDict d => Ok (bool_decide (key ∈ keys d))
  | VList xs => Ok (py_in (VStr key) xs)
  | VStr s => Ok (is_substring key s)
  | _ => Raise TypeError
  end.

(** [del obj[key]] for a string key: the object after the deletion. *)
Definition delitem (obj : value) (key : string) : result value :=
  match obj with
  | VDict d =>
      if bool_decide (key ∈ keys d) then Ok (VDict (del_item key d))
      else Raise KeyError
  | _ => Raise TypeError
  end.

(** An object as [json] builds it: no key twice in a dict, at any depth. *)
Fixpoint well_keyed (v : value) : bool :=
  match v with
  | VList xs => forallb well_keyed xs
  | VDict d => bool_decide (NoDup (d.*1)) && forallb (λ kv, well_keyed kv.2) d
  | _ => true
  end.

(** [obj.get(key, otherwise)]. *)
Definition get_or (obj : value) (key : string) (otherwise : value) : result value :=
  match obj with
  | VDict d => Ok (default otherwise (lookup_item key d))
  | _ => Raise AttributeError
  end.

End Py.

Export Py.

(** ** State and exceptions *)

(** A computation over a state [S] that returns an [A] or raises; the
    state reached is kept when it raises, as a mutation made before a
    Python exception is. *)
Definition ST (S A : Type) : Type := S → result A * S.

#[global] Instance st_ret {S} : MRet (ST S) := λ A a s, (Ok a, s).

Definition throw {S A} (e : exn) : ST S A := fun s => (Raise e, s).

Definition lift {S A} (r : result A) : ST S A := fun s => (r, s).

#[global] Instance st_bind {S} : MBind (ST S) := λ A B k m s,
  match m s with
  | (Ok a, s') => k a s'
  | (Raise e, s') => (Raise e, s')
  end.

(** An object held in a variable and changed in place: [load key] is
    [obj[key]], [store2 outer inner v] is [obj[outer][inner] = v]. *)
Definition load (key : string) : ST value value :=
  fun obj => (getitem obj key, obj).

Definition store2 (outer inner : string) (v : value) : ST value unit :=
  fun obj =>
    match setitem2 obj outer inner v with
    | Ok obj' => (Ok tt, obj')
    | Raise e => (Raise e, obj)
    end.

(** ** chaoswm/driver.py *)

Module Driver.

Definition AVAILABLE_FAULTS : list value :=
  [ VStr "EMPTY_RESPONSE";
    VStr "MALFORMED_RESPONSE_CHUNK";
    VStr "RANDOM_DATA_THEN_CLOSE";
    VStr "CONNECTION_RESET_BY_PEER" ].

(** *** The admin API *)

(** The calls the modelled methods make: [GET <base>/__admin/mappings]
    and [PUT <base>/__admin/mappings/<id>] with the mapping as body. *)
Inductive call : Type :=
| GetMappings
| PutMapping (id : value) (payload : value).

(** What [requests] gives back: a response with its status code and its
    body read as JSON, or an exception (time-out, connection refused). *)
Inductive http_result : Type :=
| Response (status_code : Z) (json : value)
| Failure.

(** The remote server answers a call from everything it has been sent so
    far, the call included; [calls] is the record of what was sent. *)
Record World : Type := mkWorld {
  server : list call → http_result;
  calls : list call
}.

Definition request (c : call) : ST World (Z * value) :=
  fun w =>
    let sent := calls w ++ [c] in
    let w' := {| server := server w; calls := sent |} in
    match server w sent with
    | Response status_code json => (Ok (status_code, json), w')
    | Failure => (Raise RequestException, w')
    end.

(** *** Iteration *)

Fixpoint chars (s : string) : list value :=
  match s with
  | EmptyString => []
  | String c rest => VStr (String c EmptyString) :: chars rest
  end.

(** The elements a [for] loop draws from an object. *)
Definition iter (obj : value) : result (list value) :=
  match obj with
  | VList xs => Ok xs
  | VDict d => Ok (VStr <$> d.*1)
  | VStr s => Ok (chars s)
  | _ => Raise TypeError
  end.

(** *** Reading the mappings *)

(** [Wiremock.mappings].  On a status other than 200 the error message
    is built with [r.text()], a call on the string [r.text]: that raises
    [TypeError] before the [return []] below it is reached. *)
Definition mappings : ST World value :=
  r ← request GetMappings;
  let '(status_code, res) := (r : Z * value) in
  if negb (status_code =? 200) then throw TypeError
  else lift (getitem res "mappings").

(** *** The two predicates *)

(** [Wiremock.strict_filter]. *)
Definition strict_filter (node _filter : value) : result bool :=
  nk ← keys_of node;
  fk ← keys_of _filter;
  let intersec := keys nk ∩ keys fk in
  if negb (size intersec =? size (keys fk))%nat then Ok false
  else
    (fix loop (ks : list string) : result bool :=
       match ks with
       | [] => Ok true
       | key :: rest =>
           f ← getitem _filter key;
           comp ← get node key;
           if negb (py_eq f comp) then Ok false else loop rest
       end) (fk.*1).

(** [Wiremock.recursive_filter].  The loop runs over the items of the
    filter, so [f], the filter's value at [key], is the item's value; the
    recursive call is on that value.  [depth] is only counted, never read,
    and is left out. *)
Fixpoint recursive_filter (node _filter : value) {struct _filter} : result bool :=
  nk ← keys_of node;
  match _filter with
  | VDict fk =>
      let intersec := keys nk ∩ keys fk in
      if negb (size intersec =? size (keys fk))%nat then Ok false
      else
        (fix loop (its : list (string * value)) : result bool :=
           match its with
           | [] => Ok true
           | (key, f) :: rest =>
               comp ← get node key;
               match f with
               | VDict _ =>
                   sub ← recursive_filter comp f;
                   if negb (sub : bool) then Ok false else loop rest
               | VList xs =>
                   if negb (py_in comp xs) then Ok false else loop rest
               | _ =>
                   if negb (py_eq f comp) then Ok false else loop rest
               end
           end) fk
  | _ => Raise AttributeError
  end.

(** *** Filter resolution *)

(** The test of one mapping in the loop of [filter_mappings]. *)
Definition matches (mapping _filter : value) (strict : bool) : result bool :=
  if strict then
    node ← get mapping "request";
    strict_filter node _filter
  else recursive_filter mapping _filter.

(** The loop of [filter_mappings] over the fetched mappings, with its two
    variables [matching_mappings] and [count]. *)
Fixpoint filter_mappings_loop (todo : list value) (_filter : value) (strict : bool)
    (limit : Z) (matching_mappings : list value) (count : Z) : result (list value) :=
  match todo with
  | [] => Ok matching_mappings
  | mapping :: rest =>
      m ← matches mapping _filter strict;
      let matching_mappings' :=
        if (m : bool) then matching_mappings ++ [mapping] else matching_mappings in
      let count' := if m then count + 1 else count in
      if (0 <? limit) && (limit <=? count') then Ok matching_mappings'
      else filter_mappings_loop rest _filter strict limit matching_mappings' count'
  end.

(** [Wiremock.filter_mappings]. *)
Definition filter_mappings (_filter : value) (strict : bool) (limit : Z)
  : ST World (list value) :=
  ms ← mappings;
  todo ← lift (iter ms);
  lift (filter_mappings_loop todo _filter strict limit [] 0).

(** [Wiremock.filter_mapping]: [None] is [VNone]. *)
Definition filter_mapping (_filter : value) (strict : bool) : ST World value :=
  matching_mappings ← filter_mappings _filter strict 1;
  if (0 <? length matching_mappings)%nat then lift (index matching_mappings 1)
  else mret VNone.

(** *** Writing a mapping back *)

(** [Wiremock.update_mapping]: [None] on a status other than 200, else the
    JSON of the answer. *)
Definition update_mapping (id mapping : value) : ST World value :=
  r ← request (PutMapping id mapping);
  let '(status_code, json) := (r : Z * value) in
  if negb (status_code =? 200) then mret VNone else mret json.

(** The procedures below change the mappings they are given in place.
    They return what the method returns, the mappings as the call leaves
    them, and the world.  The mappings of a list are separate objects, as
    the mappings a fetch has parsed are: a change to one is a change to
    that one only. *)
Definition outcome (H : Type) : Type := result value * H * World.

(** *** [update_fault] *)

(** What the loop of [update_fault] does to one mapping before the write. *)
Definition set_fault (fault : value) : ST value value :=
  id ← load "id";
  _ ← store2 "response" "fault" fault;
  mret id.

Fixpoint update_fault_loop (todo : list value) (fault : value) (ids : list value)
    (w : World) : outcome (list value) :=
  match todo with
  | [] => (Ok (VList ids), [], w)
  | mapping :: rest =>
      match set_fault fault mapping with
      | (Raise e, mapping') => (Raise e, mapping' :: rest, w)
      | (Ok id, mapping') =>
          match update_mapping id mapping' w with
          | (Raise e, w') => (Raise e, mapping' :: rest, w')
          | (Ok r, w') =>
              if truthy r then
                let '(out, rest', w'') := update_fault_loop rest fault (ids ++ [id]) w' in
                (out, mapping' :: rest', w'')
              else (Ok VNone, mapping' :: rest, w')
          end
      end
  end.

(** [Wiremock.update_fault]. *)
Definition update_fault (mappings fault : value) (w : World) : outcome value :=
  match mappings with
  | VList todo =>
      if negb (py_in fault AVAILABLE_FAULTS) then (Ok VNone, mappings, w)
      else
        let '(out, todo', w') := update_fault_loop todo fault [] w in
        (out, VList todo', w')
  | _ => (Ok VNone, mappings, w)
  end.

(** *** [update_status_code_and_body] *)

(** What the loop of [update_status_code_and_body] does to one mapping
    before the write. *)
Definition set_status_code_and_body (status_code body body_file_name : value)
  : ST value value :=
  id ← load "id";
  _ ← store2 "response" "status" status_code;
  _ ← (if truthy body_file_name then
         _ ← store2 "response" "bodyFileName" body_file_name;
         store2 "response" "body" VNone
       else if truthy body then
         _ ← store2 "response" "bodyFileName" VNone;
         store2 "response" "body" body
       else mret tt);
  mret id.

Fixpoint update_status_code_and_body_loop (todo : list value)
    (status_code body body_file_name : value) (ids : list value) (w : World)
  : outcome (list value) :=
  match todo with
  | [] => (Ok (VList ids), [], w)
  | mapping :: rest =>
      match set_status_code_and_body status_code body body_file_name mapping with
      | (Raise e, mapping') => (Raise e, mapping' :: rest, w)
      | (Ok id, mapping') =>
          match update_mapping id mapping' w with
          | (Raise e, w') => (Raise e, mapping' :: rest, w')
          | (Ok r, w') =>
              if truthy r then
                let '(out, rest', w'') :=
                  update_status_code_and_body_loop rest status_code body
                    body_file_name (ids ++ [id]) w' in
                (out, mapping' :: rest', w'')
              else (Ok VNone, mapping' :: rest, w')
          end
      end
  end.

(** [Wiremock.update_status_code_and_body]; [body] and [body_file_name]
    are [VNone] when the caller leaves them out. *)
Definition update_status_code_and_body {interpreter : Interpreter}
    (mappings status_code body body_file_name : value) (w : World) : outcome value :=
  match mappings with
  | VList todo =>
      match int status_code with
      | Ok status_code_number =>
          if (status_code_number <? 100) || (599 <? status_code_number)
          then (Ok VNone, mappings, w)
          else
            let '(out, todo', w') :=
              update_status_code_and_body_loop todo status_code body body_file_name [] w in
            (out, VList todo', w')
      | Raise _ => (Ok VNone, mappings, w)
      end
  | _ => (Ok VNone, mappings, w)
  end.

(** *** [fixed_delay] *)

(** What the loop of [fixed_delay] does to one mapping [m] up to the
    evaluation of [m["id"]] for the write. *)
Definition set_fixed_delay (fixedDelayMilliseconds : value) : ST value value :=
  _ ← store2 "response" "fixedDelayMilliseconds" fixedDelayMilliseconds;
  _ ← store2 "response" "delayDistribution" VNone;
  load "id".

Fixpoint fixed_delay_loop (todo : list value) (fixedDelayMilliseconds : value)
    (updated_ids : list value) (w : World) : outcome (list value) :=
  match todo with
  | [] => (Ok (VList updated_ids), [], w)
  | m :: rest =>
      match set_fixed_delay fixedDelayMilliseconds m with
      | (Raise e, m') => (Raise e, m' :: rest, w)
      | (Ok id, m') =>
          match update_mapping id m' w with
          | (Raise e, w') => (Raise e, m' :: rest, w')
          | (Ok r, w') =>
              let updated_ids' :=
                if truthy r then updated_ids ++ [id] else updated_ids in
              let '(out, rest', w'') :=
                fixed_delay_loop rest fixedDelayMilliseconds updated_ids' w' in
              (out, m' :: rest', w'')
          end
      end
  end.

(** [Wiremock.fixed_delay].  The loop draws from whatever [mappings] is;
    the elements of a list are the objects it changes. *)
Definition fixed_delay (mappings fixedDelayMilliseconds : value) (w : World)
  : outcome value :=
  match iter mappings with
  | Raise e => (Raise e, mappings, w)
  | Ok todo =>
      let '(out, todo', w') := fixed_delay_loop todo fixedDelayMilliseconds [] w in
      (out, match mappings with VList _ => VList todo' | _ => mappings end, w')
  end.

(** *** Exact match *)

(** An object fetched or found by the method itself: the method works on
    it and no caller sees it, so it is dropped when the method raises. *)
Definition on_local {A} (obj : value) (m : ST value A) : result (A * value) :=
  match m obj with
  | (Ok a, obj') => Ok (a, obj')
  | (Raise e, _) => Raise e
  end.

(** The loop of [mapping_by_request_exact_match]. *)
Fixpoint exact_match_loop (todo : list value) (request : value) : result value :=
  match todo with
  | [] => Ok VNone
  | mapping :: rest =>
      r ← getitem mapping "request";
      if py_eq r request then Ok mapping else exact_match_loop rest request
  end.

(** [Wiremock.mapping_by_request_exact_match]. *)
Definition mapping_by_request_exact_match (request : value) : ST World value :=
  ms ← mappings;
  todo ← lift (iter ms);
  lift (exact_match_loop todo request).

(** *** [random_delay] and [chunked_dribble_delay] *)

(** [mapping_found["response"][key] = v], then the write of the mapping
    under [mapping_found["id"]]; the end of both methods. *)
Definition set_and_update (key : string) (v mapping_found : value) : ST World value :=
  r ← lift (on_local mapping_found (_ ← store2 "response" key v; load "id"));
  let '(id, mapping) := (r : value * value) in
  update_mapping id mapping.

(** [Wiremock.random_delay].  A [delayDistribution] that is no dict is
    logged and used all the same. *)
Definition random_delay (filter delayDistribution : value) : ST World value :=
  mapping_found ← mapping_by_request_exact_match filter;
  if negb (truthy mapping_found) then mret VNone
  else set_and_update "delayDistribution" delayDistribution mapping_found.

(** [Wiremock.chunked_dribble_delay]; [chunkedDribbleDelay] is [VNone]
    when the caller leaves it out.  One that is no dict is logged, then
    tested for the two keys all the same. *)
Definition chunked_dribble_delay (_filter chunkedDribbleDelay : value)
  : ST World value :=
  chunks ← lift (contains chunkedDribbleDelay "numberOfChunks");
  if negb (chunks : bool) then mret VNone
  else
    duration ← lift (contains chunkedDribbleDelay "totalDuration");
    if negb (duration : bool) then mret VNone
    else
      mapping_found ← mapping_by_request_exact_match _filter;
      if negb (truthy mapping_found) then mret VNone
      else set_and_update "chunkedDribbleDelay" chunkedDribbleDelay mapping_found.

(** *** [up] *)

(** [if key in m["response"]: del m["response"][key]]. *)
Definition clear_key (key : string) : ST value unit :=
  fun m =>
    let cleared :=
      response ← getitem m "response";
      present ← contains response key;
      if (present : bool) then
        response' ← delitem response key;
        setitem m "response" response'
      else Ok m in
    match cleared with
    | Ok m' => (Ok tt, m')
    | Raise e => (Raise e, m)
    end.

(** What [up] does to a mapping it has found, from the evaluation of
    [mapping_found["id"]] for the message of [logger.debug] up to its
    evaluation for the write. *)
Definition clear_delays : ST value value :=
  _ ← load "id";
  _ ← clear_key "fixedDelayMilliseconds";
  _ ← clear_key "delayDistribution";
  _ ← clear_key "chunkedDribbleDelay";
  load "id".

(** The loop of [up].  [next] on a filter that finds nothing is the name
    of a builtin, read and dropped.  What the write returns is not looked
    at. *)
Fixpoint up_loop (fs : list value) (ids : list value) : ST World value :=
  match fs with
  | [] => mret (VList ids)
  | f :: rest =>
      mapping_found ← mapping_by_request_exact_match f;
      if negb (truthy mapping_found) then up_loop rest ids
      else
        r ← lift (on_local mapping_found clear_delays);
        let '(id, mapping) := (r : value * value) in
        _ ← update_mapping id mapping;
        up_loop rest (ids ++ [id])
  end.

(** [Wiremock.up]. *)
Definition up (filter : value) : ST World value :=
  fs ← lift (iter filter);
  up_loop fs [].

End Driver.

(** ** chaoswm/driver.py: the creation of mappings *)

Module Admin.

(** [add_mapping] and [populate] make one more kind of call,
    [POST <base>/__admin/mappings] with a mapping as body, and no call of
    the kinds above; they have a record of their own. *)
Inductive call : Type :=
| PostMapping (payload : value).

Record World : Type := mkWorld {
  server : list call → Driver.http_result;
  calls : list call
}.

Definition request (c : call) : ST World (Z * value) :=
  fun w =>
    let sent := calls w ++ [c] in
    let w' := {| server := server w; calls := sent |} in
    match server w sent with
    | Driver.Response status_code json => (Ok (status_code, json), w')
    | Driver.Failure => (Raise RequestException, w')
    end.

(** [Wiremock.add_mapping]: [None] on a status other than 201, else the
    [id] of the JSON of the answer. *)
Definition add_mapping (mapping : value) : ST World value :=
  r ← request (PostMapping mapping);
  let '(status_code, res) := (r : Z * value) in
  if negb (status_code =? 201) then mret VNone
  else lift (getitem res "id").

(** The loop of [populate]. *)
Fixpoint populate_loop (todo : list value) (ids : list value) : ST World value :=
  match todo with
  | [] => mret (VList ids)
  | mapping :: rest =>
      id ← add_mapping mapping;
      if negb (is_none id) then populate_loop rest (ids ++ [id])
      else mret VNone
  end.

(** [Wiremock.populate]. *)
Definition populate (mappings : value) : ST World value :=
  match mappings with
  | VList todo => populate_loop todo []
  | _ => mret VNone
  end.

End Admin.

(** ** chaoswm/actions.py *)

Module Actions.

Import Driver.

(** What the actions call and the two modules do not define:
    [check_configuration] and [get_wm_params] of [chaoswm/utils.py], and
    the methods [mappings_by_request], [mappings_by_metadata],
    [mapping_by_request] and [update_status_code], which the actions call
    on the driver and [Wiremock] has under no such name.  They are taken
    as parameters; a statement about the actions holds for all of them,
    or says that the driver is the one of [chaoswm/driver.py], on which a
    call of any of the four raises [AttributeError]. *)
Class Collaborators : Type := {
  check_configuration : value → value;
  get_wm_params : value → result value;
  mappings_by_request : value → ST World value;
  mappings_by_metadata : value → ST World value;
  mapping_by_request : value → ST World value;
  update_status_code : value → value → ST World value
}.

Section WithCollaborators.

Context `{Collaborators}.

(** [Wiremock(url=params["url"], timeout=params["timeout"])]: with no host
    and port given, the constructor probes nothing; the driver it builds
    talks to the world at that url. *)
Definition wiremock (params : value) : result unit :=
  _ ← getitem params "url";
  _ ← getitem params "timeout";
  mret tt.

(** [key in d.keys()]. *)
Definition has_key (key : string) (d : list (string * value)) : bool :=
  bool_decide (key ∈ keys d).

(** [_filter_mappings].  Its first test, [if not filter], reads the
    builtin [filter], not the parameter [f]: a builtin is true, so the
    test never raises. *)
Definition _filter_mappings (f : value) : ST World value :=
  filter_keys ← lift (keys_of f);
  if has_key "request" filter_keys && has_key "metadata" filter_keys then
    throw ValueError
  else if has_key "request" filter_keys then
    r ← lift (getitem f "request");
    mappings_by_request r
  else if has_key "metadata" filter_keys then
    m ← lift (getitem f "metadata");
    mappings_by_metadata m
  else mappings_by_request f.

(** A call of a driver procedure on objects the action keeps to itself:
    only what the procedure returns goes on. *)
Definition returned {O} (p : World → outcome O) : ST World value :=
  fun w => let '(out, _, w') := p w in (out, w').

(** The loop that [fixed_delay] and [update_mappings_fault] share: the
    mappings of every filter, one filter after the other. *)
Fixpoint resolve (fs : list value) (mappings_to_update : list value)
  : ST World (list value) :=
  match fs with
  | [] => mret mappings_to_update
  | f :: rest =>
      mappings ← _filter_mappings f;
      if truthy mappings then
        found ← lift (iter mappings);
        resolve rest (mappings_to_update ++ found)
      else resolve rest mappings_to_update
  end.

(** [fixed_delay]. *)
Definition fixed_delay (filter fixedDelayMilliseconds configuration : value)
  : ST World value :=
  params ← lift (get_wm_params configuration);
  _ ← lift (wiremock params);
  fs ← lift (iter filter);
  mappings_to_update ← resolve fs [];
  if (0 <? length (mappings_to_update : list value))%nat then
    returned (Driver.fixed_delay (VList mappings_to_update) fixedDelayMilliseconds)
  else mret (VList []).

(** The loop of [update_mappings_status_code]; [mappings_to_update] starts
    as [None].  The message for a mapping that is [None] reads
    [mapping["request"]]. *)
Fixpoint to_update (fs : list value) (mappings_to_update : value) : ST World value :=
  match fs with
  | [] => mret mappings_to_update
  | f :: rest =>
      mapping ← mapping_by_request f;
      if is_none mapping then
        _ ← lift (getitem mapping "request");
        to_update rest mappings_to_update
      else
        mappings_to_update' ← lift (append mappings_to_update mapping);
        to_update rest mappings_to_update'
  end.

(** [update_mappings_status_code]. *)
Definition update_mappings_status_code (status_code filter configuration : value)
  : ST World value :=
  if negb (truthy (check_configuration configuration)) then mret (VList [])
  else if negb (truthy status_code) then mret (VList [])
  else
    params ← lift (get_wm_params configuration);
    _ ← lift (wiremock params);
    fs ← lift (iter filter);
    mappings_to_update ← to_update fs VNone;
    n ← lift (len mappings_to_update);
    if 0 <? n then update_status_code mappings_to_update status_code
    else mret (VList []).


(** [update_mappings_fault]. *)
Definition update_mappings_fault (filter fault configuration : value)
  : ST World value :=
  params ← lift (get_wm_params configuration);
  _ ← lift (wiremock params);
  fs ← lift (iter filter);
  mappings_to_update ← resolve fs [];
  if (0 <? length (mappings_to_update : list value))%nat then
    returned (Driver.update_fault (VList mappings_to_update) fault)
  else mret (VList []).

(** The loop that [random_delay], [chunked_dribble_delay] and [down]
    share: what the driver returns for every filter, one after the other. *)
Fixpoint for_each (op : value → ST World value) (fs : list value)
    (updated : list value) : ST World value :=
  match fs with
  | [] => mret (VList updated)
  | f :: rest =>
      r ← op f;
      for_each op rest (updated ++ [r])
  end.

(** [random_delay]. *)
Definition random_delay (filter delayDistribution configuration : value)
  : ST World value :=
  params ← lift (get_wm_params configuration);
  _ ← lift (wiremock params);
  fs ← lift (iter filter);
  for_each (λ f, Driver.random_delay f delayDistribution) fs [].

(** [chunked_dribble_delay]. *)
Definition chunked_dribble_delay (filter chunkedDribbleDelay configuration : value)
  : ST World value :=
  params ← lift (get_wm_params configuration);
  _ ← lift (wiremock params);
  fs ← lift (iter filter);
  for_each (λ f, Driver.chunked_dribble_delay f chunkedDribbleDelay) fs [].

(** [down]; [defaults["down"]] is read anew for every filter. *)
Definition down (filter configuration : value) : ST World value :=
  params ← lift (get_wm_params configuration);
  _ ← lift (wiremock params);
  conf ← lift (get_or configuration "wiremock" (VDict []));
  has_defaults ← lift (contains conf "defaults");
  if negb (has_defaults : bool) then mret (VList [])
  else
    defaults ← lift (get_or conf "defaults" (VDict []));
    has_down ← lift (contains defaults "down");
    if negb (has_down : bool) then mret (VList [])
    else
      fs ← lift (iter filter);
      for_each (λ f, d ← lift (getitem defaults "down");
                     Driver.chunked_dribble_delay f d) fs [].

(** [up]. *)
Definition up (filter configuration : value) : ST World value :=
  params ← lift (get_wm_params configuration);
  _ ← lift (wiremock params);
  Driver.up filter.

End WithCollaborators.

End Actions.

(** * The vocabulary of the statements *)

Import Driver.

(** ** Mappings *)

(** The field [key] of a mapping. *)
Definition field (mapping : value) (key : string) : option value :=
  match mapping with
  | VDict d => lookup_item key d
  | _ => None
  end.

(** The [request] block of a mapping, when the mapping has one. *)
Definition request_block (mapping : value) : option (list (string * value)) :=
  match mapping with
  | VDict d =>
      match lookup_item "request" d with
      | Some (VDict node) => Some node
      | _ => None
      end
  | _ => None
  end.

(** Its [response] block, when it has one. *)
Definition response_block (mapping : value) : option (list (string * value)) :=
  match field mapping "response" with
  | Some (VDict resp) => Some resp
  | _ => None
  end.

(** Its id, [None] when it has none. *)
Definition id_of (mapping : value) : value := default VNone (field mapping "id").

(** The object is a JSON object. *)
Definition is_dict (obj : value) : Prop := ∃ d, obj = VDict d.

(** A mapping as the data model has it: an id and a response block. *)
Definition well_formed (mapping : value) : Prop :=
  is_Some (field mapping "id") ∧ is_Some (response_block mapping).

(** ** What the predicates are to decide *)

(** What the spec asks of a node and a filter in strict mode: every key of
    the filter is a key of the node, with an equal value. *)
Definition strict_holds (node _filter : list (string * value)) : Prop :=
  ∀ key f, lookup_item key _filter = Some f →
    ∃ comp, lookup_item key node = Some comp ∧ py_eq f comp = true.

(** The reading under which a predicate is applied to the [request] block
    of the mapping. *)
Definition on_request_block (predicate : value → value → result bool)
    (mapping _filter : value) : result bool :=
  node ← get mapping "request";
  predicate node _filter.

(** The loop of [recursive_filter] over the items of the filter, under a
    name. *)
Definition recursive_filter_items (node : value)
  : list (string * value) → result bool :=
  fix loop (its : list (string * value)) : result bool :=
    match its with
    | [] => Ok true
    | (key, f) :: rest =>
        comp ← get node key;
        match f with
        | VDict _ =>
            sub ← recursive_filter comp f;
            if negb (sub : bool) then Ok false else loop rest
        | VList xs =>
            if negb (py_in comp xs) then Ok false else loop rest
        | _ =>
            if negb (py_eq f comp) then Ok false else loop rest
        end
    end.

(** ** What a mutation is to leave *)

(** [m'] is [m] with the keys of [changes] bound as [changes] says in the
    response block, and nothing else touched. *)
Definition response_changed (changes : list (string * value)) (m m' : value) : Prop :=
  ∃ resp resp',
    response_block m = Some resp ∧ response_block m' = Some resp'
    ∧ (∀ key, lookup_item key resp'
              = match lookup_item key changes with
                | Some v => Some v
                | None => lookup_item key resp
                end)
    ∧ (∀ key, key ≠ "response" → field m' key = field m key).

(** The bindings [update_status_code_and_body] makes for a body given
    without a body file, the last made first. *)
Definition status_and_body (status_code body : value) : list (string * value) :=
  [("body", body); ("bodyFileName", VNone); ("status", status_code)].

(** The bindings [fixed_delay] makes, the last made first. *)
Definition delay_changes (fixedDelayMilliseconds : value) : list (string * value) :=
  [("delayDistribution", VNone); ("fixedDelayMilliseconds", fixedDelayMilliseconds)].

(** ** Servers and what they were sent *)

(** The writes that send each mapping of [ms] under its id. *)
Definition writes (ms : list value) : list call :=
  (λ m, PutMapping (id_of m) m) <$> ms.

(** A server that answers every write with success. *)
Definition accepts_writes (w : World) : Prop :=
  ∀ sent id payload, ∃ json,
    server w (sent ++ [PutMapping id payload]) = Response 200 json
    ∧ truthy json = true.

(** A server that answers every call, well or not. *)
Definition responsive (w : World) : Prop := ∀ sent, server w sent ≠ Failure.

(** What [update_mapping] returns for the answer to what was sent. *)
Definition answer (srv : list call → http_result) (sent : list call) : value :=
  match srv sent with
  | Response status_code json => if negb (status_code =? 200) then VNone else json
  | Failure => VNone
  end.

(** The ids of the writes [ws], sent after [sent], that the server
    answered with success. *)
Fixpoint acknowledged (srv : list call → http_result) (sent ws : list call)
  : list value :=
  match ws with
  | [] => []
  | c :: rest =>
      match c with
      | PutMapping id _ =>
          if truthy (answer srv (sent ++ [c]))
          then id :: acknowledged srv (sent ++ [c]) rest
          else acknowledged srv (sent ++ [c]) rest
      | GetMappings => acknowledged srv (sent ++ [c]) rest
      end
  end.

(** ** A server, two mappings and stand-ins for the examples *)

(** A server for the examples: it lists the mappings [ms] and answers a
    write with the id written. *)
Definition stub_server (ms : list value) : list call → http_result := fun sent =>
  match last sent with
  | Some GetMappings => Response 200 (VDict [("mappings", VList ms)])
  | Some (PutMapping id _) => Response 200 (VDict [("id", id)])
  | None => Response 404 VNone
  end.

(** The world before anything is sent to that server. *)
Definition stub_world (ms : list value) : World :=
  {| server := stub_server ms; calls := [] |}.

(** The mapping of the spec's end-to-end example, and a second one with
    a body and a body file. *)
Definition get_x : value :=
  VDict [("id", VInt 1);
         ("request", VDict [("method", VStr "GET"); ("url", VStr "/x")]);
         ("response", VDict [("status", VInt 200)])].

Definition post_y : value :=
  VDict [("id", VInt 2);
         ("request", VDict [("method", VStr "POST"); ("url", VStr "/y")]);
         ("response", VDict [("status", VInt 200); ("body", VStr "old");
                             ("bodyFileName", VStr "y.json")])].

(** An interpreter for the examples: the limit of 4300 digits that Python
    has when left alone, and no number in a string with a character beyond
    ASCII.  The examples ask it about ASCII strings alone. *)
Definition ascii_interpreter : Interpreter :=
  {| int_max_str_digits := 4300;
     int_max_str_digits_allowed := or_intror (proj1 (Nat.leb_le 640 4300) eq_refl);
     int_beyond_ascii := λ _, None |}.

(** Stand-ins for the examples: a configuration is its own parameters, and
    the methods the driver lacks are written with the ones it has. *)
Definition stub_collaborators : Actions.Collaborators :=
  {| Actions.check_configuration := λ configuration, VBool (truthy configuration);
     Actions.get_wm_params := λ configuration, Ok configuration;
     Actions.mappings_by_request := λ r,
       ms ← filter_mappings r true 0; mret (VList ms);
     Actions.mappings_by_metadata := λ m,
       ms ← filter_mappings (VDict [("metadata", m)]) false 0; mret (VList ms);
     Actions.mapping_by_request := λ r, filter_mapping r true;
     Actions.update_status_code := λ ms status_code,
       Actions.returned
         (update_status_code_and_body (interpreter := ascii_interpreter)
            ms status_code VNone VNone) |}.

(** A configuration with the two parameters the actions read. *)
Definition stub_configuration : value :=
  VDict [("url", VStr "http://localhost:8080"); ("timeout", VInt 1)].

(** The driver as [chaoswm/driver.py] has it: [Wiremock] has no method
    named [mappings_by_request], [mappings_by_metadata],
    [mapping_by_request] or [update_status_code], so a call of any of them
    on the driver raises [AttributeError], with nothing asked of the
    server. *)
Definition driver_of_src `{Actions.Collaborators} : Prop :=
  (∀ r w, Actions.mappings_by_request r w = (Raise AttributeError, w))
  ∧ (∀ m w, Actions.mappings_by_metadata m w = (Raise AttributeError, w))
  ∧ (∀ f w, Actions.mapping_by_request f w = (Raise AttributeError, w))
  ∧ (∀ ms status_code w,
       Actions.update_status_code ms status_code w = (Raise AttributeError, w)).

(** That driver, with the stand-ins for [chaoswm/utils.py]. *)
Definition src_collaborators : Actions.Collaborators :=
  {| Actions.check_configuration := λ configuration, VBool (truthy configuration);
     Actions.get_wm_params := λ configuration, Ok configuration;
     Actions.mappings_by_request := λ _, throw AttributeError;
     Actions.mappings_by_metadata := λ _, throw AttributeError;
     Actions.mapping_by_request := λ _, throw AttributeError;
     Actions.update_status_code := λ _ _, throw AttributeError |}.

(** The filter is a dict with both a [request] and a [metadata] key. *)
Definition names_both (f : value) : bool :=
  match f with
  | VDict d =>
      match lookup_item "request" d, lookup_item "metadata" d with
      | Some _, Some _ => true
      | _, _ => false
      end
  | _ => false
  end.

(** ** More of the vocabulary: exact match, listings, cleared delays *)

(** The world after [sent] went out to the server. *)
Definition after (w : World) (sent : list call) : World :=
  {| server := server w; calls := calls w ++ sent |}.

(** A server that lists the mappings [ms] whenever it is asked. *)
Definition lists (w : World) (ms : list value) : Prop :=
  ∀ sent, ∃ json,
    server w (sent ++ [GetMappings]) = Response 200 json
    ∧ getitem json "mappings" = Ok (VList ms).

(** The [request] of the mapping [m] is equal to [f], or is there and
    differs from it. *)
Definition request_is (f m : value) : Prop :=
  ∃ r, getitem m "request" = Ok r ∧ py_eq r f = true.

Definition request_differs (f m : value) : Prop :=
  ∃ r, getitem m "request" = Ok r ∧ py_eq r f = false.

(** The request [f] finds the mapping [m] in the listing [ms]: [m] is the
    first mapping of [ms] whose request is [f]. *)
Definition finds (ms : list value) (f m : value) : Prop :=
  ∃ pre post, ms = pre ++ m :: post
              ∧ Forall (request_differs f) pre ∧ request_is f m.

(** The three keys [up] takes out of a response block. *)
Definition delay_keys : list string :=
  ["fixedDelayMilliseconds"; "delayDistribution"; "chunkedDribbleDelay"].

(** [m'] is [m] without the delay keys in the response block, and nothing
    else touched. *)
Definition delays_cleared (m m' : value) : Prop :=
  ∃ resp resp',
    response_block m = Some resp ∧ response_block m' = Some resp'
    ∧ (∀ key, lookup_item key resp'
              = if bool_decide (key ∈ delay_keys) then None
                else lookup_item key resp)
    ∧ (∀ key, key ≠ "response" → field m' key = field m key).

(** The calls [up] makes for the mappings it found: for each one the
    listing, then the write. *)
Definition found_and_written (found : list value) : list call :=
  found ≫= λ m, [GetMappings; PutMapping (id_of m) m].

(** The loop of [py_eq] over the items [d] of a dict, against the items
    [e] of the other, under a name. *)
Definition items_eq (e : list (string * value))
  : list (string * value) → bool :=
  fix go (d : list (string * value)) : bool :=
    match d with
    | [] => true
    | (k, v) :: d' =>
        match lookup_item k e with
        | Some w => py_eq v w && go d'
        | None => false
        end
    end.

(** An object that is neither a list nor a dict. *)
Definition scalar (v : value) : bool :=
  match v with
  | VList _ | VDict _ => false
  | _ => true
  end.

(** A server for the examples that lists [ms] and acknowledges every write
    but those under the id [refused]. *)
Definition picky_server (ms : list value) (refused : value)
  : list call → http_result := fun sent =>
  match last sent with
  | Some GetMappings => Response 200 (VDict [("mappings", VList ms)])
  | Some (PutMapping id _) =>
      if py_eq id refused then Response 500 VNone
      else Response 200 (VDict [("id", id)])
  | None => Response 404 VNone
  end.

(** A configuration for the examples with a default delay for [down]. *)
Definition down_configuration : value :=
  VDict [("url", VStr "http://localhost:8080"); ("timeout", VInt 1);
         ("wiremock",
          VDict [("defaults",
                  VDict [("down", VDict [("numberOfChunks", VInt 5);
                                         ("totalDuration", VInt 1000)])])])].

(** ** The vocabulary of the creation of mappings *)

(** The world after [sent] went out to the server. *)
Definition posted (w : Admin.World) (sent : list Admin.call) : Admin.World :=
  {| Admin.server := Admin.server w; Admin.calls := Admin.calls w ++ sent |}.

(** What [add_mapping] makes of the answer to what was sent: the id the
    server gave, when it answered 201 with one. *)
Definition created_id (srv : list Admin.call → http_result) (sent : list Admin.call)
  : option value :=
  match srv sent with
  | Response 201 json =>
      match getitem json "id" with
      | Ok VNone => None
      | Ok id => Some id
      | Raise _ => None
      end
  | _ => None
  end.

(** The ids the server gives to the mappings [ms], sent one after the
    other after [sent], when it gives one to each. *)
Fixpoint created_ids (srv : list Admin.call → http_result) (sent : list Admin.call)
    (ms : list value) : option (list value) :=
  match ms with
  | [] => Some []
  | m :: rest =>
      id ← created_id srv (sent ++ [Admin.PostMapping m]);
      ids ← created_ids srv (sent ++ [Admin.PostMapping m]) rest;
      Some (id :: ids)
  end.

(** A server for the examples that numbers the mappings it is sent and
    takes none whose [request] is missing. *)
Definition numbering_server : list Admin.call → http_result := fun sent =>
  match last sent with
  | Some (Admin.PostMapping m) =>
      match field m "request" with
      | Some _ => Response 201 (VDict [("id", VInt (Z.of_nat (length sent)))])
      | None => Response 422 (VDict [("errors", VList [])])
      end
  | None => Response 404 VNone
  end.

(** * Properties *)

(** ** The model on examples *)

Example py_eq_dicts_in_any_order :
  py_eq (VDict [("a", VInt 1); ("b", VStr "x")])
        (VDict [("b", VStr "x"); ("a", VInt 1)]) = true.
Proof. by vm_compute. Qed.

Example py_eq_bool_is_int :
  py_eq (VList [VBool true]) (VList [VInt 1]) = true
  ∧ py_eq (VStr "1") (VInt 1) = false
  ∧ py_eq VNone (VBool false) = false.
Proof. by vm_compute. Qed.

(** No interpreter refuses a string for its length when it has 640 digits
    at most. *)
Lemma exceeds_small (max_digits n : nat) :
  max_digits = 0%nat ∨ (640 ≤ max_digits)%nat → (n ≤ 640)%nat →
  exceeds max_digits n = false.
Proof.
  intros [-> | Hmax] Hn; [done |].
  unfold exceeds. apply andb_false_iff. right. apply Nat.ltb_ge. lia.
Qed.

(** On an ASCII string of 640 digits at most, every interpreter gives what
    the ASCII reading gives. *)
Lemma int_ascii `{Interpreter} (s : string) :
  is_ascii_string s = true → (digit_count s ≤ 640)%nat →
  int (VStr s)
  = match int_of_string 0 s with Some n => Ok n | None => Raise ValueError end.
Proof.
  intros Hascii Hcount. cbn [int]. rewrite Hascii.
  unfold int_of_string.
  by rewrite (exceeds_small _ _ int_max_str_digits_allowed Hcount).
Qed.

(** The same with the result named. *)
Lemma int_ascii_is `{Interpreter} (s : string) (r : result Z) :
  is_ascii_string s = true → (digit_count s ≤ 640)%nat →
  match int_of_string 0 s with Some n => Ok n | None => Raise ValueError end = r →
  int (VStr s) = r.
Proof. intros Hascii Hcount <-. by apply int_ascii. Qed.

Example int_examples `{Interpreter} :
  int (VStr "404") = Ok 404
  ∧ int (VStr " +4_04 ") = Ok 404
  ∧ int (VStr "0404") = Ok 404
  ∧ int (VStr "-12") = Ok (-12)
  ∧ int (VStr "4__04") = Raise ValueError
  ∧ int (VStr "12_") = Raise ValueError
  ∧ int (VStr "4 04") = Raise ValueError
  ∧ int (VStr "") = Raise ValueError
  ∧ int (VStr "abc") = Raise ValueError
  ∧ int VNone = Raise TypeError
  ∧ int (VBool true) = Ok 1.
Proof.
  repeat split; try reflexivity;
    (apply int_ascii_is; [by vm_compute | vm_compute; lia | by vm_compute]).
Qed.

(** Beyond ASCII the interpreter decides. *)
Example int_beyond_ascii_examples `{Interpreter} (s : string) :
  is_ascii_string s = false →
  int (VStr s)
  = match int_beyond_ascii s with Some n => Ok n | None => Raise ValueError end.
Proof. intros Hascii. cbn [int]. by rewrite Hascii. Qed.

(** An ASCII string of more digits than the limit of the interpreter is
    refused. *)
Example int_max_str_digits_examples `{Interpreter} (s : string) :
  is_ascii_string s = true →
  int_max_str_digits ≠ 0%nat →
  (int_max_str_digits < digit_count s)%nat →
  int (VStr s) = Raise ValueError.
Proof.
  intros Hascii Hlimit Hcount. cbn [int]. rewrite Hascii.
  unfold int_of_string, exceeds.
  rewrite (proj2 (Nat.eqb_neq _ _) Hlimit), (proj2 (Nat.ltb_lt _ _) Hcount).
  done.
Qed.

Example strict_filter_examples :
  strict_filter (VDict [("method", VStr "GET"); ("url", VStr "/x")])
    (VDict [("url", VStr "/x")]) = Ok true
  ∧ strict_filter (VDict [("method", VStr "GET"); ("url", VStr "/x")])
      (VDict [("url", VStr "/y")]) = Ok false
  ∧ strict_filter (VDict [("method", VStr "GET")])
      (VDict [("url", VNone)]) = Ok false
  ∧ strict_filter (VDict [("method", VStr "GET")])
      (VDict [("method", VList [VStr "GET"; VStr "POST"])]) = Ok false
  ∧ strict_filter VNone (VDict []) = Raise AttributeError.
Proof. by vm_compute. Qed.

Example recursive_filter_examples :
  recursive_filter get_x
    (VDict [("request", VDict [("method", VList [VStr "GET"; VStr "POST"])])]) = Ok true
  ∧ recursive_filter get_x
      (VDict [("request", VDict [("method", VList [VStr "PUT"; VStr "POST"])])]) = Ok false
  ∧ recursive_filter get_x (VDict [("response", VDict [("status", VInt 200)])]) = Ok true
  ∧ recursive_filter get_x (VDict [("metadata", VDict [])]) = Ok false
  ∧ recursive_filter get_x (VDict [("id", VDict [])]) = Raise AttributeError.
Proof. by vm_compute. Qed.

Example filter_mappings_examples :
  fst (filter_mappings (VDict [("url", VStr "/y")]) true 0 (stub_world [get_x; post_y]))
  = Ok [post_y]
  ∧ fst (filter_mappings (VDict []) true 1 (stub_world [get_x; post_y])) = Ok [get_x]
  ∧ fst (filter_mappings (VDict [("url", VStr "/z")]) true 1 (stub_world [get_x; post_y]))
    = Ok []
  ∧ fst (filter_mapping (VDict [("url", VStr "/z")]) true (stub_world [get_x; post_y]))
    = Ok VNone.
Proof. by vm_compute. Qed.

(** ** Dicts and key sets *)

Lemma elem_of_keys (key : string) (d : list (string * value)) :
  key ∈ keys d ↔ is_Some (lookup_item key d).
Proof.
  unfold keys. rewrite elem_of_list_to_set.
  induction d as [|[k v] d IH]; simpl.
  - split; [intros Hin; inversion Hin | intros [? ?]; discriminate].
  - rewrite elem_of_cons, IH.
    destruct (String.eqb_spec k key) as [->|Hne].
    + split; [eauto | auto].
    + split; [intros [Heq|?]; [congruence | done] | auto].
Qed.

(** The test [len(intersec) != len(_filter.keys())] is the test that
    every key of the filter is a key of the node. *)
Lemma size_intersec (nk fk : gset string) :
  size (nk ∩ fk) = size fk ↔ fk ⊆ nk.
Proof.
  split.
  - intros Hsize.
    assert (nk ∩ fk = fk) as Heq.
    { apply set_subseteq_size_eq; [apply intersection_subseteq_r | by rewrite Hsize]. }
    rewrite <- Heq. apply intersection_subseteq_l.
  - intros Hsub. f_equal. apply set_eq. intros key.
    rewrite elem_of_intersection. split; [tauto | auto].
Qed.

Lemma intersec_test (nk fk : list (string * value)) :
  negb (size (keys nk ∩ keys fk) =? size (keys fk))%nat = false
  ↔ ∀ key, is_Some (lookup_item key fk) → is_Some (lookup_item key nk).
Proof.
  rewrite negb_false_iff, Nat.eqb_eq, size_intersec.
  split.
  - intros Hsub key Hk. apply elem_of_keys, Hsub, elem_of_keys, Hk.
  - intros Hall key Hk. apply elem_of_keys, Hall, elem_of_keys, Hk.
Qed.

Lemma lookup_item_fst (key : string) (d : list (string * value)) :
  key ∈ d.*1 → is_Some (lookup_item key d).
Proof.
  intros Hin. apply elem_of_keys. unfold keys.
  by apply elem_of_list_to_set.
Qed.

Lemma lookup_item_elem_of (key : string) (v : value) (d : list (string * value)) :
  lookup_item key d = Some v → (key, v) ∈ d.
Proof.
  induction d as [|[k w] d IH]; simpl; [discriminate|].
  destruct (String.eqb_spec k key) as [->|Hne].
  - intros [= ->]. apply list_elem_of_here.
  - intros Hl. apply list_elem_of_further, IH, Hl.
Qed.

(** ** The strict predicate *)

(** The loop of [strict_filter], over keys that are all keys of the node. *)
Lemma strict_filter_loop (node fk : list (string * value)) (ks : list string) :
  (∀ key, key ∈ ks → is_Some (lookup_item key fk)) →
  (∀ key, is_Some (lookup_item key fk) → is_Some (lookup_item key node)) →
  ∃ b,
    (fix loop (ks : list string) : result bool :=
       match ks with
       | [] => Ok true
       | key :: rest =>
           f ← getitem (VDict fk) key;
           comp ← get (VDict node) key;
           if negb (py_eq f comp) then Ok false else loop rest
       end) ks = Ok b
    ∧ (b = true ↔
       ∀ key f, key ∈ ks → lookup_item key fk = Some f →
         ∃ comp, lookup_item key node = Some comp ∧ py_eq f comp = true).
Proof.
  intros Hks Hsub. induction ks as [|key ks IH].
  - exists true. split; [done|]. split; [|done].
    intros _ key f Hin. inversion Hin.
  - destruct (Hks key) as [f Hf]; [apply list_elem_of_here|].
    destruct (Hsub key) as [comp Hcomp]; [eauto|].
    destruct IH as (b & Hloop & Hb).
    { intros k Hk. apply Hks. by apply list_elem_of_further. }
    simpl. rewrite Hf, Hcomp. simpl.
    destruct (py_eq f comp) eqn:Heq; simpl.
    + exists b. split; [exact Hloop|]. rewrite Hb. split.
      * intros Hall k g [->|Hin]%elem_of_cons Hg.
        -- rewrite Hf in Hg. injection Hg as <-. eauto.
        -- eauto.
      * intros Hall k g Hin Hg. apply Hall; [by apply list_elem_of_further | done].
    + exists false. split; [done|]. split; [done|].
      intros Hall. destruct (Hall key f) as (c & Hc & Hpy);
        [apply list_elem_of_here | done |].
      rewrite Hcomp in Hc. injection Hc as <-. congruence.
Qed.

Lemma strict_filter_spec (node _filter : list (string * value)) :
  ∃ b, strict_filter (VDict node) (VDict _filter) = Ok b
       ∧ (b = true ↔ strict_holds node _filter).
Proof.
  unfold strict_filter. simpl.
  destruct (negb (size (keys node ∩ keys _filter) =? size (keys _filter))%nat)
    eqn:Htest.
  - exists false. split; [done|]. split; [done|].
    intros Hholds. rewrite (proj2 (intersec_test node _filter)) in Htest; [done|].
    intros key [f Hf].
    destruct (Hholds key f Hf) as (comp & -> & _). eauto.
  - pose proof (proj1 (intersec_test node _filter) Htest) as Hsub.
    destruct (strict_filter_loop node _filter (_filter.*1)) as (b & Hloop & Hb).
    { intros key. apply lookup_item_fst. }
    { exact Hsub. }
    exists b. split; [exact Hloop|]. rewrite Hb. unfold strict_holds. split.
    + intros Hall key f Hf. apply Hall; [|done].
      apply lookup_item_elem_of in Hf.
      apply list_elem_of_fmap. by exists (key, f).
    + intros Hall key f _ Hf. by apply Hall.
Qed.

(** ** The loop of [filter_mappings] *)

(** With no limit, and a test that raises on none of the mappings, the
    loop keeps the mappings that pass the test, in their order. *)
Lemma filter_mappings_loop_unlimited (p : value → bool) (_filter : value)
    (strict : bool) (todo matching_mappings : list value) (count : Z) :
  (∀ mapping, mapping ∈ todo → matches mapping _filter strict = Ok (p mapping)) →
  filter_mappings_loop todo _filter strict 0 matching_mappings count
  = Ok (matching_mappings ++ List.filter p todo).
Proof.
  revert matching_mappings count.
  induction todo as [|mapping rest IH]; intros acc count Hp; simpl.
  - by rewrite app_nil_r.
  - rewrite (Hp mapping); [|apply list_elem_of_here]. simpl.
    rewrite IH; [|intros m Hm; apply Hp; by apply list_elem_of_further].
    destruct (p mapping); [by rewrite <- app_assoc | done].
Qed.

(** What [filter_mappings] does once the mappings are fetched. *)
Lemma filter_mappings_fetched (_filter : value) (strict : bool) (limit : Z)
    (w w' : World) (ms : list value) :
  mappings w = (Ok (VList ms), w') →
  filter_mappings _filter strict limit w
  = (filter_mappings_loop ms _filter strict limit [] 0, w').
Proof.
  intros Hfetch. unfold filter_mappings, mbind, st_bind. rewrite Hfetch.
  reflexivity.
Qed.

Lemma matches_strict (mapping : value) (node _filter : list (string * value)) :
  request_block mapping = Some node →
  matches mapping (VDict _filter) true = strict_filter (VDict node) (VDict _filter).
Proof.
  unfold request_block, matches. destruct mapping as [| | | | |d]; try discriminate.
  simpl. destruct (lookup_item "request" d) as [[| | | | |n]|]; try discriminate.
  by intros [= ->].
Qed.

Lemma recursive_filter_unfold (node fk : list (string * value)) :
  recursive_filter (VDict node) (VDict fk)
  = if negb (size (keys node ∩ keys fk) =? size (keys fk))%nat then Ok false
    else recursive_filter_items (VDict node) fk.
Proof. reflexivity. Qed.

Lemma filter_true (ms : list value) : List.filter (λ _, true) ms = ms.
Proof. induction ms as [|m ms IH]; simpl; [done | by rewrite IH]. Qed.

(** C1: for a node and a filter, [strict_filter] holds exactly when every
    key of the filter is a key of the node bound to an equal value; so
    strict filtering of the fetched mappings keeps, in their order, exactly
    the mappings whose request block satisfies this. *)
Theorem strict_filter_includes_exactly (_filter : list (string * value)) :
  (∀ node, ∃ b, strict_filter (VDict node) (VDict _filter) = Ok b
                ∧ (b = true ↔ strict_holds node _filter))
  ∧ ∀ (ms : list value) (w w' : World),
      mappings w = (Ok (VList ms), w') →
      Forall (λ m, is_Some (request_block m)) ms →
      ∃ p, filter_mappings (VDict _filter) true 0 w = (Ok (List.filter p ms), w')
           ∧ ∀ m, m ∈ ms →
               (p m = true ↔
                ∃ node, request_block m = Some node ∧ strict_holds node _filter).
Proof.
  split; [intros node; apply strict_filter_spec|].
  intros ms w w' Hfetch Hblocks.
  set (p := λ m,
    match request_block m with
    | Some node =>
        match strict_filter (VDict node) (VDict _filter) with
        | Ok b => b
        | Raise _ => false
        end
    | None => false
    end).
  exists p. split.
  - rewrite (filter_mappings_fetched _ _ _ _ _ _ Hfetch).
    rewrite (filter_mappings_loop_unlimited p); [done|].
    intros m Hm. rewrite Forall_forall in Hblocks.
    destruct (Hblocks m Hm) as [node Hnode].
    rewrite (matches_strict _ _ _ Hnode). unfold p. rewrite Hnode.
    destruct (strict_filter_spec node _filter) as (b & -> & _). done.
  - intros m Hm. rewrite Forall_forall in Hblocks.
    destruct (Hblocks m Hm) as [node Hnode]. unfold p. rewrite Hnode.
    destruct (strict_filter_spec node _filter) as (b & -> & Hb).
    rewrite Hb. split; [eauto|]. by intros (n & [= <-] & Hn).
Qed.

Lemma strict_filter_includes_exactly_witness :
  ∃ p, filter_mappings (VDict [("method", VStr "GET")]) true 0
         (stub_world [get_x; post_y])
       = (Ok (List.filter p [get_x; post_y]),
          {| server := stub_server [get_x; post_y]; calls := [GetMappings] |})
       ∧ ∀ m, m ∈ [get_x; post_y] →
           (p m = true ↔
            ∃ node, request_block m = Some node
                    ∧ strict_holds node [("method", VStr "GET")]).
Proof.
  apply (proj2 (strict_filter_includes_exactly [("method", VStr "GET")])
           [get_x; post_y] (stub_world [get_x; post_y])).
  - reflexivity.
  - repeat constructor; vm_compute; eauto.
Defined.

(** C10: the empty filter passes both predicates on every node, so that
    filtering with it, in either mode, selects every fetched mapping. *)
Theorem empty_filter_selects_all :
  (∀ node, strict_filter (VDict node) (VDict []) = Ok true
           ∧ recursive_filter (VDict node) (VDict []) = Ok true)
  ∧ ∀ (strict : bool) (ms : list value) (w w' : World),
      mappings w = (Ok (VList ms), w') →
      Forall (λ m, if strict then is_Some (request_block m) else is_dict m) ms →
      filter_mappings (VDict []) strict 0 w = (Ok ms, w').
Proof.
  assert (∀ node, strict_filter (VDict node) (VDict []) = Ok true
                  ∧ recursive_filter (VDict node) (VDict []) = Ok true) as Hnode.
  { intros node. split.
    - destruct (strict_filter_spec node []) as (b & -> & Hb).
      f_equal. apply Hb. intros key f. discriminate.
    - rewrite recursive_filter_unfold, (proj2 (intersec_test node [])); [done|].
      intros key [f Hf]. discriminate. }
  split; [exact Hnode|].
  intros strict ms w w' Hfetch Hblocks.
  rewrite (filter_mappings_fetched _ _ _ _ _ _ Hfetch).
  rewrite (filter_mappings_loop_unlimited (λ _, true)); [by rewrite filter_true|].
  intros m Hm. rewrite Forall_forall in Hblocks.
  specialize (Hblocks m Hm). destruct strict.
  - destruct Hblocks as [node Hblock].
    rewrite (matches_strict _ _ _ Hblock). apply Hnode.
  - destruct Hblocks as [d ->]. apply Hnode.
Qed.

Lemma empty_filter_selects_all_witness :
  filter_mappings (VDict []) true 0 (stub_world [get_x; post_y])
  = (Ok [get_x; post_y],
     {| server := stub_server [get_x; post_y]; calls := [GetMappings] |}).
Proof.
  apply (proj2 empty_filter_selects_all true [get_x; post_y]
           (stub_world [get_x; post_y])).
  - reflexivity.
  - repeat constructor; vm_compute; eauto.
Defined.

(** ** The recursive predicate *)

(** A pass of the loop of [recursive_filter] means that every sequence in
    the filter contains the node's value at its key. *)
Lemma recursive_filter_items_sequence (node its : list (string * value))
    (key : string) (xs : list value) :
  recursive_filter_items (VDict node) its = Ok true →
  (key, VList xs) ∈ its →
  py_in (default VNone (lookup_item key node)) xs = true.
Proof.
  induction its as [|[k f] its IH]; intros Hloop Hin; [inversion Hin|].
  apply elem_of_cons in Hin as [Heq|Hin].
  - injection Heq as <- <-. simpl in Hloop.
    destruct (py_in (default VNone (lookup_item key node)) xs); [done|].
    discriminate.
  - apply IH; [|done]. clear IH Hin.
    cbn -[py_eq py_in recursive_filter] in Hloop.
    destruct f as [| | | |ys|g];
      try (destruct (recursive_filter _ (VDict g)) as [sub|]; [|discriminate]);
      cbn -[py_eq py_in recursive_filter] in Hloop;
      match type of Hloop with
      | (if ?test then _ else _) = _ => destruct test; [discriminate | exact Hloop]
      end.
Qed.

(** C2: on a filter whose value at [key] is the sequence [xs],
    [recursive_filter] holds on that key exactly when the node's value at
    [key] is a member of [xs], that is, equal to one of its elements; so
    recursive filtering on such a filter keeps the mappings whose field
    is one of the elements and drops the others. *)
Theorem recursive_filter_sequence (key : string) (xs : list value) :
  (∀ node, ∃ b,
      recursive_filter (VDict node) (VDict [(key, VList xs)]) = Ok b
      ∧ (b = true ↔ ∃ comp, lookup_item key node = Some comp ∧ py_in comp xs = true))
  ∧ (∀ node fk,
      (key, VList xs) ∈ fk →
      recursive_filter (VDict node) (VDict fk) = Ok true →
      ∃ comp, lookup_item key node = Some comp ∧ py_in comp xs = true)
  ∧ (∀ comp a b c,
      py_in comp [a; b; c] = py_eq comp a || py_eq comp b || py_eq comp c)
  ∧ ∀ (ms : list value) (w w' : World),
      mappings w = (Ok (VList ms), w') →
      Forall is_dict ms →
      ∃ p, filter_mappings (VDict [(key, VList xs)]) false 0 w
           = (Ok (List.filter p ms), w')
           ∧ ∀ m, m ∈ ms →
               (p m = true ↔
                ∃ d comp, m = VDict d ∧ lookup_item key d = Some comp
                          ∧ py_in comp xs = true).
Proof.
  assert (∀ node, ∃ b,
      recursive_filter (VDict node) (VDict [(key, VList xs)]) = Ok b
      ∧ (b = true ↔ ∃ comp, lookup_item key node = Some comp ∧ py_in comp xs = true))
    as Hsingle.
  { intros node. rewrite recursive_filter_unfold.
    destruct (negb _) eqn:Htest.
    - exists false. split; [done|]. split; [done|].
      intros (comp & Hcomp & _).
      rewrite (proj2 (intersec_test node [(key, VList xs)])) in Htest; [done|].
      intros k [f Hf]. simpl in Hf.
      destruct (String.eqb_spec key k) as [<-|]; [eauto | discriminate].
    - pose proof (proj1 (intersec_test _ _) Htest key) as [comp Hcomp].
      { simpl. rewrite String.eqb_refl. eauto. }
      simpl. rewrite Hcomp. simpl.
      destruct (py_in comp xs) eqn:Hin; simpl.
      + exists true. split; [done|]. split; [eauto | done].
      + exists false. split; [done|]. split; [done|].
        intros (c & [= <-] & Hc). congruence. }
  split; [exact Hsingle|]. split; [|split].
  - intros node fk Hin. rewrite recursive_filter_unfold.
    destruct (negb _) eqn:Htest; [discriminate|]. intros Hloop.
    pose proof (recursive_filter_items_sequence _ _ _ _ Hloop Hin) as Hmem.
    destruct (proj1 (intersec_test _ _) Htest key) as [comp Hcomp].
    { apply lookup_item_fst, list_elem_of_fmap. by exists (key, VList xs). }
    rewrite Hcomp in Hmem. eauto.
  - intros comp a b c. simpl. by rewrite orb_false_r, orb_assoc.
  - intros ms w w' Hfetch Hdicts.
    set (p := λ m,
      match recursive_filter m (VDict [(key, VList xs)]) with
      | Ok b => b
      | Raise _ => false
      end).
    exists p. rewrite Forall_forall in Hdicts. split.
    + rewrite (filter_mappings_fetched _ _ _ _ _ _ Hfetch).
      rewrite (filter_mappings_loop_unlimited p); [done|].
      intros m Hm. destruct (Hdicts m Hm) as [d ->]. unfold matches, p.
      by destruct (Hsingle d) as (b & -> & _).
    + intros m Hm. destruct (Hdicts m Hm) as [d ->]. unfold p.
      destruct (Hsingle d) as (b & -> & Hb). rewrite Hb. split.
      * intros (comp & ? & ?). by exists d, comp.
      * intros (d' & comp & [= <-] & ? & ?). by exists comp.
Qed.

Lemma recursive_filter_sequence_witness :
  ∃ comp, lookup_item "method" [("method", VStr "POST"); ("url", VStr "/y")] = Some comp
          ∧ py_in comp [VStr "GET"; VStr "POST"; VStr "PUT"] = true.
Proof.
  apply (proj1 (proj2 (recursive_filter_sequence "method"
                         [VStr "GET"; VStr "POST"; VStr "PUT"]))
           [("method", VStr "POST"); ("url", VStr "/y")]
           [("url", VStr "/y"); ("method", VList [VStr "GET"; VStr "POST"; VStr "PUT"])]).
  - apply list_elem_of_further, list_elem_of_here.
  - vm_compute. reflexivity.
Defined.

(** ** The node each mode hands to its predicate *)

(** C4, as stated, fails: in recursive mode the predicate is not applied
    to the request block.  The mapping for GET /x has a request block that
    passes the recursive predicate on the filter "method is GET", yet
    recursive filtering on that filter does not select it. *)
Lemma recursive_mode_not_on_request_block :
  on_request_block recursive_filter get_x (VDict [("method", VStr "GET")]) = Ok true
  ∧ matches get_x (VDict [("method", VStr "GET")]) false = Ok false
  ∧ fst (filter_mappings (VDict [("method", VStr "GET")]) false 0 (stub_world [get_x]))
    = Ok []
  ∧ ¬ (∀ mapping _filter,
         matches mapping _filter false
         = on_request_block recursive_filter mapping _filter).
Proof.
  split; [by vm_compute|]. split; [by vm_compute|]. split; [by vm_compute|].
  intros Hclaim.
  specialize (Hclaim get_x (VDict [("method", VStr "GET")])).
  vm_compute in Hclaim. discriminate.
Qed.

(** C4, amended: in strict mode the strict predicate is applied to the
    [request] block of the mapping; in recursive mode the recursive
    predicate is applied to the whole mapping, and it reaches the request
    block when the filter is nested under a [request] key. *)
Theorem predicate_argument_by_mode (mapping _filter : value) :
  matches mapping _filter true = on_request_block strict_filter mapping _filter
  ∧ matches mapping _filter false = recursive_filter mapping _filter
  ∧ ∀ node rf,
      request_block mapping = Some node →
      matches mapping (VDict [("request", VDict rf)]) false
      = recursive_filter (VDict node) (VDict rf).
Proof.
  split; [done|]. split; [done|].
  intros node rf Hblock. unfold matches.
  destruct mapping as [| | | | |d]; try discriminate. simpl in Hblock.
  destruct (lookup_item "request" d) as [[| | | | |n]|] eqn:Hreq; try discriminate.
  injection Hblock as ->.
  rewrite recursive_filter_unfold.
  rewrite (proj2 (intersec_test d [("request", VDict rf)])).
  - cbn -[recursive_filter]. rewrite Hreq. cbn -[recursive_filter].
    by destruct (recursive_filter (VDict node) (VDict rf)) as [[]|].
  - intros k [f Hf]. cbn [lookup_item] in Hf.
    destruct (String.eqb_spec "request" k) as [<-|]; [eauto | discriminate].
Qed.

Lemma predicate_argument_by_mode_witness :
  matches get_x (VDict [("request", VDict [("method", VList [VStr "GET"; VStr "POST"])])])
    false
  = recursive_filter (VDict [("method", VStr "GET"); ("url", VStr "/x")])
      (VDict [("method", VList [VStr "GET"; VStr "POST"])]).
Proof.
  apply (proj2 (proj2 (predicate_argument_by_mode get_x VNone))).
  reflexivity.
Defined.

(** ** [filter_mapping] *)

(** With limit 1 the loop stops at the first match: it collects at most
    one mapping. *)
Lemma filter_mappings_loop_limit_1 (todo : list value) (_filter : value)
    (strict : bool) (found : list value) :
  filter_mappings_loop todo _filter strict 1 [] 0 = Ok found →
  (length found ≤ 1)%nat.
Proof.
  induction todo as [|mapping rest IH]; simpl.
  - intros [= <-]. simpl. lia.
  - destruct (matches mapping _filter strict) as [[]|]; simpl.
    + intros [= <-]. simpl. lia.
    + exact IH.
    + discriminate.
Qed.

(** It collects the first match, when there is one: index 0 is where the
    mapping to return sits. *)
Lemma filter_mappings_loop_first_match (p : value → bool) (_filter : value)
    (strict : bool) (todo : list value) :
  (∀ mapping, mapping ∈ todo → matches mapping _filter strict = Ok (p mapping)) →
  filter_mappings_loop todo _filter strict 1 [] 0 = Ok (take 1 (List.filter p todo)).
Proof.
  induction todo as [|mapping rest IH]; intros Hp; simpl; [done|].
  rewrite (Hp mapping); [|apply list_elem_of_here]. simpl.
  destruct (p mapping); simpl; [by rewrite take_0|].
  apply IH. intros m Hm. apply Hp. by apply list_elem_of_further.
Qed.

(** So index 1 is never in bounds: [filter_mapping] returns [None] or
    raises, and never returns a mapping. *)
Lemma filter_mapping_returns_none (_filter : value) (strict : bool)
    (w w' : World) (v : value) :
  filter_mapping _filter strict w = (Ok v, w') → v = VNone.
Proof.
  unfold filter_mapping, filter_mappings, mbind, st_bind, lift, mret, st_ret.
  destruct (mappings w) as [[ms|] w1]; [|discriminate].
  destruct (iter ms) as [todo|]; [|discriminate].
  destruct (filter_mappings_loop todo _filter strict 1 [] 0) as [found|] eqn:Hloop;
    [|discriminate].
  apply filter_mappings_loop_limit_1 in Hloop.
  destruct found as [|m [|m' found]]; simpl in *.
  - by intros [= <- _].
  - discriminate.
  - lia.
Qed.

(** C3: the code does not do what the claim says.  When a mapping matches,
    the list collected with limit 1 has that one mapping at index 0, and
    [filter_mapping] reads index 1: it raises [IndexError] in place of
    returning the first match. *)
Theorem filter_mapping_index_out_of_bounds :
  request_block get_x = Some [("method", VStr "GET"); ("url", VStr "/x")]
  ∧ strict_filter (VDict [("method", VStr "GET"); ("url", VStr "/x")])
      (VDict [("method", VStr "GET")]) = Ok true
  ∧ filter_mappings (VDict [("method", VStr "GET")]) true 1 (stub_world [get_x; post_y])
    = (Ok [get_x], {| server := stub_server [get_x; post_y]; calls := [GetMappings] |})
  ∧ filter_mapping (VDict [("method", VStr "GET")]) true (stub_world [get_x; post_y])
    = (Raise IndexError,
       {| server := stub_server [get_x; post_y]; calls := [GetMappings] |}).
Proof. repeat split; by vm_compute. Qed.

(** ** Validation before the writes *)

(** C6: for a fault name outside the four of [AVAILABLE_FAULTS],
    [update_fault] returns [None] with the mappings as they were and the
    world as it was: no call went out, the name was checked first. *)
Theorem update_fault_unknown_fault (ms : list value) (fault : string) (w : World) :
  fault ∉ ["EMPTY_RESPONSE"; "MALFORMED_RESPONSE_CHUNK";
           "RANDOM_DATA_THEN_CLOSE"; "CONNECTION_RESET_BY_PEER"] →
  update_fault (VList ms) (VStr fault) w = (Ok VNone, VList ms, w).
Proof.
  intros Hnot. unfold update_fault.
  assert (py_in (VStr fault) AVAILABLE_FAULTS = false) as ->; [|done].
  unfold py_in, AVAILABLE_FAULTS. cbn [existsb py_eq].
  repeat (apply orb_false_intro; [|try done]);
    apply String.eqb_neq; intros ->; apply Hnot; set_solver.
Qed.

Lemma update_fault_unknown_fault_witness :
  update_fault (VList [get_x; post_y]) (VStr "NOT_A_FAULT") (stub_world [get_x; post_y])
  = (Ok VNone, VList [get_x; post_y], stub_world [get_x; post_y]).
Proof.
  apply update_fault_unknown_fault.
  intros Hin. repeat (apply elem_of_cons in Hin as [Heq|Hin]; [discriminate|]).
  inversion Hin.
Defined.

(** ** Changing the response block of a mapping *)

Lemma lookup_set_item (key key' : string) (v : value) (d : list (string * value)) :
  lookup_item key' (set_item key v d)
  = if String.eqb key key' then Some v else lookup_item key' d.
Proof.
  induction d as [|[k w] d IH]; simpl.
  - by destruct (String.eqb key key').
  - destruct (String.eqb_spec k key) as [->|Hne]; simpl.
    + by destruct (String.eqb key key').
    + rewrite IH. destruct (String.eqb_spec k key') as [->|]; [|done].
      by rewrite (proj2 (String.eqb_neq key key')).
Qed.

Lemma response_changed_nil (m : value) :
  is_Some (response_block m) → response_changed [] m m.
Proof. intros [resp Hresp]. by exists resp, resp. Qed.

(** One assignment [m["response"][key] = v] after the changes made so
    far. *)
Lemma store2_response (changes : list (string * value)) (key : string) (v : value)
    (m m1 : value) :
  response_changed changes m m1 →
  ∃ m2, store2 "response" key v m1 = (Ok tt, m2)
        ∧ response_changed ((key, v) :: changes) m m2.
Proof.
  intros (resp & resp1 & Hresp & Hresp1 & Hkeys & Hfields).
  unfold response_block, field in Hresp1.
  destruct m1 as [| | | | |d1]; try discriminate.
  destruct (lookup_item "response" d1) as [[| | | | |r]|] eqn:Hr; try discriminate.
  injection Hresp1 as ->.
  exists (VDict (set_item "response" (VDict (set_item key v resp1)) d1)).
  split.
  - unfold store2, setitem2. cbn -[set_item]. by rewrite Hr.
  - exists resp, (set_item key v resp1). split; [done|]. split; [|split].
    + unfold response_block, field. by rewrite lookup_set_item, String.eqb_refl.
    + intros k. rewrite lookup_set_item. cbn [lookup_item].
      destruct (String.eqb key k); [done | apply Hkeys].
    + intros k Hk. cbn [field]. rewrite lookup_set_item.
      rewrite (proj2 (String.eqb_neq "response" k)); [|done].
      by apply Hfields.
Qed.

Lemma response_changed_id (changes : list (string * value)) (m m' : value) :
  response_changed changes m m' → field m' "id" = field m "id".
Proof. intros (_ & _ & _ & _ & _ & Hfields). by apply Hfields. Qed.

Lemma load_field (key : string) (m v : value) :
  field m key = Some v → load key m = (Ok v, m).
Proof.
  unfold load, field. destruct m as [| | | | |d]; try discriminate.
  simpl. by intros ->.
Qed.

(** *** A server that accepts every write *)

Lemma update_mapping_accepted (id mapping : value) (w : World) :
  accepts_writes w →
  ∃ json, update_mapping id mapping w
          = (Ok json, {| server := server w;
                         calls := calls w ++ [PutMapping id mapping] |})
          ∧ truthy json = true.
Proof.
  intros Hacc. destruct (Hacc (calls w) id mapping) as (json & Hjson & Htruthy).
  exists json. split; [|done].
  unfold update_mapping, mbind, st_bind, request. by rewrite Hjson.
Qed.

(** *** [update_status_code_and_body] *)

Lemma set_status_code_and_body_spec (status_code body body_file_name m : value) :
  truthy body_file_name = false →
  truthy body = true →
  well_formed m →
  ∃ m', set_status_code_and_body status_code body body_file_name m = (Ok (id_of m), m')
        ∧ response_changed (status_and_body status_code body) m m'.
Proof.
  intros Hfile Hbody [[id Hid] Hresp].
  destruct (store2_response [] "status" status_code m m) as (m1 & Hs1 & Hc1);
    [by apply response_changed_nil|].
  destruct (store2_response _ "bodyFileName" VNone m m1 Hc1) as (m2 & Hs2 & Hc2).
  destruct (store2_response _ "body" body m m2 Hc2) as (m3 & Hs3 & Hc3).
  exists m3. split; [|exact Hc3].
  unfold set_status_code_and_body, mbind, st_bind, mret, st_ret.
  rewrite (load_field _ _ _ Hid), Hs1, Hfile, Hbody, Hs2, Hs3.
  unfold id_of. by rewrite Hid.
Qed.

Lemma update_status_code_and_body_loop_accepted
    (status_code body body_file_name : value) (ms ids : list value) (w : World) :
  truthy body_file_name = false →
  truthy body = true →
  Forall well_formed ms →
  accepts_writes w →
  ∃ ms',
    update_status_code_and_body_loop ms status_code body body_file_name ids w
    = (Ok (VList (ids ++ (id_of <$> ms))), ms',
       {| server := server w; calls := calls w ++ writes ms' |})
    ∧ Forall2 (response_changed (status_and_body status_code body)) ms ms'.
Proof.
  intros Hfile Hbody Hwf. revert ids w.
  induction Hwf as [|m ms Hm Hms IH]; intros ids w Hacc.
  - exists []. simpl. rewrite !app_nil_r. by destruct w.
  - destruct (set_status_code_and_body_spec status_code body body_file_name m)
      as (m' & Hset & Hchanged); [done..|].
    destruct (update_mapping_accepted (id_of m) m' w Hacc) as (json & Hput & Htruthy).
    destruct (IH (ids ++ [id_of m])
                {| server := server w; calls := calls w ++ [PutMapping (id_of m) m'] |})
      as (ms' & Hloop & Hall); [exact Hacc|].
    exists (m' :: ms'). split; [|by constructor].
    cbn [update_status_code_and_body_loop].
    rewrite Hset, Hput, Htruthy, Hloop. cbn [server calls].
    rewrite <- !app_assoc. cbn [fmap list_fmap app writes].
    assert (id_of m' = id_of m) as Hid
      by (unfold id_of; by rewrite (response_changed_id _ _ _ Hchanged)).
    unfold writes. cbn [fmap list_fmap]. by rewrite Hid.
Qed.

Lemma stub_accepts_writes (ms : list value) (sent : list call) :
  accepts_writes {| server := stub_server ms; calls := sent |}.
Proof.
  intros sent' id payload. exists (VDict [("id", id)]).
  cbn [server]. unfold stub_server. by rewrite last_snoc.
Qed.

(** Under every interpreter, with the status code "404" and the empty
    string for a body, [post_y] is written back with the body and the body
    file it had. *)
Lemma empty_body_kept {interpreter : Interpreter} :
  ∃ m' w',
    update_status_code_and_body (VList [post_y]) (VStr "404") (VStr "") VNone
      (stub_world [post_y])
    = (Ok (VList [VInt 2]), VList [m'], w')
    ∧ calls w' = [PutMapping (VInt 2) m']
    ∧ ∃ resp', response_block m' = Some resp'
        ∧ lookup_item "status" resp' = Some (VStr "404")
        ∧ lookup_item "body" resp' = Some (VStr "old")
        ∧ lookup_item "body" resp' ≠ Some (VStr "")
        ∧ lookup_item "bodyFileName" resp' = Some (VStr "y.json").
Proof.
  eexists _, _. split.
  - unfold update_status_code_and_body.
    rewrite (int_ascii_is "404" (Ok 404));
      [by vm_compute | by vm_compute | vm_compute; lia | by vm_compute].
  - split; [done|]. eexists. split; [by vm_compute|]. by vm_compute.
Qed.

(** C5, as stated, fails on the body: a body that is the empty string is
    a body left out, and the mapping keeps the body and the body file it
    had. *)
Lemma empty_body_not_written :
  ∃ m' w',
    update_status_code_and_body (interpreter := ascii_interpreter)
      (VList [post_y]) (VStr "404") (VStr "") VNone (stub_world [post_y])
    = (Ok (VList [VInt 2]), VList [m'], w')
    ∧ calls w' = [PutMapping (VInt 2) m']
    ∧ ∃ resp', response_block m' = Some resp'
        ∧ lookup_item "status" resp' = Some (VStr "404")
        ∧ lookup_item "body" resp' = Some (VStr "old")
        ∧ lookup_item "body" resp' ≠ Some (VStr "")
        ∧ lookup_item "bodyFileName" resp' = Some (VStr "y.json").
Proof. exact empty_body_kept. Qed.

(** C5, amended: a status code that [int] of the interpreter at hand does
    not read as an integer of [100, 599] makes
    [update_status_code_and_body] return [None] with no call made and no
    mapping touched; with a status code that it does read so, a body that is not empty
    and no body file, and a server that accepts the writes, every mapping
    is written back, in order, with [response.status] the status code as
    given, [response.body] the body and [response.bodyFileName] [None],
    the rest of it as it was, and the ids of all of them are returned. *)
Theorem update_status_code_and_body_spec {interpreter : Interpreter}
    (ms : list value) (status_code body body_file_name : value) (w : World) :
  ((∀ n, int status_code = Ok n → n < 100 ∨ 599 < n) →
   update_status_code_and_body (VList ms) status_code body body_file_name w
   = (Ok VNone, VList ms, w))
  ∧ (∀ n, int status_code = Ok n → 100 ≤ n ≤ 599 →
     truthy body_file_name = false →
     truthy body = true →
     Forall well_formed ms →
     accepts_writes w →
     ∃ ms',
       update_status_code_and_body (VList ms) status_code body body_file_name w
       = (Ok (VList (id_of <$> ms)), VList ms',
          {| server := server w; calls := calls w ++ writes ms' |})
       ∧ Forall2 (response_changed (status_and_body status_code body)) ms ms').
Proof.
  split.
  - intros Hinvalid. unfold update_status_code_and_body.
    destruct (int status_code) as [n|]; [|done].
    destruct (Hinvalid n eq_refl) as [Hlo|Hhi].
    + by rewrite (proj2 (Z.ltb_lt n 100)).
    + by rewrite (proj2 (Z.ltb_lt 599 n)), orb_true_r.
  - intros n Hint [Hlo Hhi] Hfile Hbody Hwf Hacc.
    destruct (update_status_code_and_body_loop_accepted status_code body
                body_file_name ms [] w) as (ms' & Hloop & Hall); [done..|].
    exists ms'. split; [|done].
    unfold update_status_code_and_body. rewrite Hint.
    rewrite (proj2 (Z.ltb_ge n 100)), (proj2 (Z.ltb_ge 599 n)); [|lia..].
    cbn [orb]. by rewrite Hloop.
Qed.

Lemma update_status_code_and_body_spec_witness :
  update_status_code_and_body (interpreter := ascii_interpreter)
    (VList [get_x; post_y]) (VStr "700") (VStr "Not found")
    VNone (stub_world [get_x; post_y])
  = (Ok VNone, VList [get_x; post_y], stub_world [get_x; post_y])
  ∧ ∃ ms',
      update_status_code_and_body (interpreter := ascii_interpreter)
        (VList [get_x; post_y]) (VStr "404")
        (VStr "Not found") VNone (stub_world [get_x; post_y])
      = (Ok (VList [VInt 1; VInt 2]), VList ms',
         {| server := stub_server [get_x; post_y]; calls := writes ms' |})
      ∧ Forall2 (response_changed (status_and_body (VStr "404") (VStr "Not found")))
          [get_x; post_y] ms'.
Proof.
  split.
  - apply (proj1 (update_status_code_and_body_spec (interpreter := ascii_interpreter)
                    [get_x; post_y] (VStr "700")
                    (VStr "Not found") VNone (stub_world [get_x; post_y]))).
    intros n Hn. vm_compute in Hn. injection Hn as <-. lia.
  - apply (proj2 (update_status_code_and_body_spec (interpreter := ascii_interpreter)
                    [get_x; post_y] (VStr "404")
                    (VStr "Not found") VNone (stub_world [get_x; post_y])) 404).
    + by vm_compute.
    + lia.
    + reflexivity.
    + reflexivity.
    + repeat constructor; vm_compute; eauto.
    + apply stub_accepts_writes.
Defined.

(** *** [fixed_delay] *)

Lemma update_mapping_responsive (id mapping : value) (w : World) :
  responsive w →
  update_mapping id mapping w
  = (Ok (answer (server w) (calls w ++ [PutMapping id mapping])),
     {| server := server w; calls := calls w ++ [PutMapping id mapping] |}).
Proof.
  intros Hresp. unfold update_mapping, mbind, st_bind, request, answer.
  pose proof (Hresp (calls w ++ [PutMapping id mapping])) as Hne.
  destruct (server w _) as [status_code json|]; [|done].
  by destruct (negb _).
Qed.

Lemma set_fixed_delay_spec (fixedDelayMilliseconds m : value) :
  well_formed m →
  ∃ m', set_fixed_delay fixedDelayMilliseconds m = (Ok (id_of m), m')
        ∧ response_changed (delay_changes fixedDelayMilliseconds) m m'.
Proof.
  intros [[id Hid] Hresp].
  destruct (store2_response [] "fixedDelayMilliseconds" fixedDelayMilliseconds m m)
    as (m1 & Hs1 & Hc1); [by apply response_changed_nil|].
  destruct (store2_response _ "delayDistribution" VNone m m1 Hc1) as (m2 & Hs2 & Hc2).
  exists m2. split; [|exact Hc2].
  unfold set_fixed_delay, mbind, st_bind. rewrite Hs1, Hs2.
  apply load_field. rewrite (response_changed_id _ _ _ Hc2).
  unfold id_of. by rewrite Hid.
Qed.

Lemma fixed_delay_loop_spec (fixedDelayMilliseconds : value)
    (ms updated_ids : list value) (w : World) :
  Forall well_formed ms →
  responsive w →
  ∃ ms',
    fixed_delay_loop ms fixedDelayMilliseconds updated_ids w
    = (Ok (VList (updated_ids ++ acknowledged (server w) (calls w) (writes ms'))), ms',
       {| server := server w; calls := calls w ++ writes ms' |})
    ∧ Forall2 (response_changed (delay_changes fixedDelayMilliseconds)) ms ms'.
Proof.
  intros Hwf. revert updated_ids w.
  induction Hwf as [|m ms Hm Hms IH]; intros ids w Hresp.
  - exists []. simpl. rewrite !app_nil_r. by destruct w.
  - destruct (set_fixed_delay_spec fixedDelayMilliseconds m Hm) as (m' & Hset & Hchanged).
    pose proof (update_mapping_responsive (id_of m) m' w Hresp) as Hput.
    assert (id_of m' = id_of m) as Hid
      by (unfold id_of; by rewrite (response_changed_id _ _ _ Hchanged)).
    set (r := answer (server w) (calls w ++ [PutMapping (id_of m) m'])) in *.
    destruct (IH (if truthy r then ids ++ [id_of m] else ids)
                {| server := server w; calls := calls w ++ [PutMapping (id_of m) m'] |})
      as (ms' & Hloop & Hall); [exact Hresp|].
    exists (m' :: ms'). split; [|by constructor].
    cbn [fixed_delay_loop]. rewrite Hset, Hput, Hloop. cbn [server calls].
    unfold writes. cbn [fmap list_fmap acknowledged]. rewrite Hid. fold r.
    rewrite <- !app_assoc. cbn [app].
    destruct (truthy r); [by rewrite <- app_assoc | done].
Qed.

Lemma stub_responsive (ms : list value) (sent : list call) :
  responsive {| server := stub_server ms; calls := sent |}.
Proof.
  intros sent'. cbn [server]. unfold stub_server.
  by destruct (last sent') as [[|id payload]|].
Qed.

(** C9, as stated, fails on the delay distribution: [fixed_delay] binds
    the key to [None], it does not take the key out.  After a fixed delay
    of 300 on the mapping for GET /x, whose response block had no such
    key, the block has it. *)
Lemma fixed_delay_keeps_delay_distribution_key :
  ∃ m' w',
    Driver.fixed_delay (VList [get_x]) (VInt 300) (stub_world [get_x])
    = (Ok (VList [VInt 1]), VList [m'], w')
    ∧ calls w' = [PutMapping (VInt 1) m']
    ∧ ∃ resp', response_block m' = Some resp'
        ∧ lookup_item "fixedDelayMilliseconds" resp' = Some (VInt 300)
        ∧ lookup_item "delayDistribution" resp' = Some VNone
        ∧ "delayDistribution" ∈ keys resp'
        ∧ lookup_item "delayDistribution" resp' ≠ None.
Proof.
  eexists _, _. split; [by vm_compute|]. split; [done|].
  eexists. split; [by vm_compute|].
  split; [by vm_compute|]. split; [by vm_compute|]. split; [|by vm_compute].
  apply elem_of_keys. vm_compute. eauto.
Qed.

Section ActionProperties.

Context `{Actions.Collaborators}.

Lemma fixed_delay_resolved (filter fixedDelayMilliseconds configuration params : value)
    (fs ms : list value) (w0 w : World) :
  Actions.get_wm_params configuration = Ok params →
  Actions.wiremock params = Ok tt →
  iter filter = Ok fs →
  Actions.resolve fs [] w0 = (Ok ms, w) →
  ms ≠ [] →
  Actions.fixed_delay filter fixedDelayMilliseconds configuration w0
  = Actions.returned (Driver.fixed_delay (VList ms) fixedDelayMilliseconds) w.
Proof.
  intros Hparams Hdriver Hfs Hresolve Hne.
  unfold Actions.fixed_delay, mbind, st_bind, lift.
  rewrite Hparams, Hdriver, Hfs, Hresolve.
  by destruct ms.
Qed.

(** C9, amended: on mappings with an id and a response block, and a
    server that answers, [fixed_delay] writes every mapping back with
    [response.fixedDelayMilliseconds] the delay and
    [response.delayDistribution] bound to [None], the rest of it as it
    was, and returns the ids of the writes the server answered with
    success; the action does so on the mappings its filters resolve to. *)
Theorem fixed_delay_spec (ms : list value) (fixedDelayMilliseconds : value) (w : World) :
  Forall well_formed ms →
  responsive w →
  (∃ ms',
     Driver.fixed_delay (VList ms) fixedDelayMilliseconds w
     = (Ok (VList (acknowledged (server w) (calls w) (writes ms'))), VList ms',
        {| server := server w; calls := calls w ++ writes ms' |})
     ∧ Forall2 (response_changed (delay_changes fixedDelayMilliseconds)) ms ms')
  ∧ ∀ (filter configuration params : value) (fs : list value) (w0 : World),
      Actions.get_wm_params configuration = Ok params →
      Actions.wiremock params = Ok tt →
      iter filter = Ok fs →
      Actions.resolve fs [] w0 = (Ok ms, w) →
      ms ≠ [] →
      ∃ ms',
        Actions.fixed_delay filter fixedDelayMilliseconds configuration w0
        = (Ok (VList (acknowledged (server w) (calls w) (writes ms'))),
           {| server := server w; calls := calls w ++ writes ms' |})
        ∧ Forall2 (response_changed (delay_changes fixedDelayMilliseconds)) ms ms'.
Proof.
  intros Hwf Hresp.
  destruct (fixed_delay_loop_spec fixedDelayMilliseconds ms [] w Hwf Hresp)
    as (ms' & Hloop & Hall).
  assert (Driver.fixed_delay (VList ms) fixedDelayMilliseconds w
          = (Ok (VList (acknowledged (server w) (calls w) (writes ms'))), VList ms',
             {| server := server w; calls := calls w ++ writes ms' |})) as Hdriver.
  { unfold Driver.fixed_delay. cbn [iter]. by rewrite Hloop. }
  split; [by exists ms'|].
  intros filter configuration params fs w0 Hparams Hwm Hfs Hresolve Hne.
  exists ms'. split; [|done].
  rewrite (fixed_delay_resolved _ _ _ _ _ _ _ _ Hparams Hwm Hfs Hresolve Hne).
  unfold Actions.returned. by rewrite Hdriver.
Qed.

(** C7: a filter description with both a [request] and a [metadata] key
    makes [_filter_mappings] raise [ValueError], whatever the two keys are
    bound to; the world is as it was, no method of the driver was called. *)
Theorem filter_mappings_rejects_request_and_metadata (f : list (string * value))
    (w : World) :
  is_Some (lookup_item "request" f) →
  is_Some (lookup_item "metadata" f) →
  Actions._filter_mappings (VDict f) w = (Raise ValueError, w).
Proof.
  intros Hrequest Hmetadata.
  unfold Actions._filter_mappings, Actions.has_key, mbind, st_bind, lift.
  cbn [keys_of].
  rewrite !bool_decide_eq_true_2; [done | by apply elem_of_keys..].
Qed.

(** C8: the code does not do what the claim says.  With a valid
    configuration, a status code and an empty list of filters,
    [update_mappings_status_code] reaches [len(mappings_to_update)] with
    [mappings_to_update] still [None] and raises [TypeError]; no call is
    made, and no empty list is returned. *)
Theorem update_mappings_status_code_empty_filter (status_code configuration params : value)
    (w : World) :
  truthy (Actions.check_configuration configuration) = true →
  truthy status_code = true →
  Actions.get_wm_params configuration = Ok params →
  is_Some (field params "url") →
  is_Some (field params "timeout") →
  Actions.update_mappings_status_code status_code (VList []) configuration w
  = (Raise TypeError, w).
Proof.
  intros Hconf Hstatus Hparams [url Hurl] [timeout Htimeout].
  unfold Actions.update_mappings_status_code. rewrite Hconf, Hstatus. cbn [negb].
  unfold mbind, st_bind, lift. rewrite Hparams.
  destruct params as [| | | | |d]; try discriminate.
  cbn [field] in Hurl, Htimeout.
  unfold Actions.wiremock, mbind, result_bind, getitem. by rewrite Hurl, Htimeout.
Qed.

End ActionProperties.

Lemma fixed_delay_spec_witness :
  (∃ ms',
     Driver.fixed_delay (VList [get_x; post_y]) (VInt 300) (stub_world [get_x; post_y])
     = (Ok (VList (acknowledged (stub_server [get_x; post_y]) [] (writes ms'))),
        VList ms',
        {| server := stub_server [get_x; post_y]; calls := [] ++ writes ms' |})
     ∧ Forall2 (response_changed (delay_changes (VInt 300))) [get_x; post_y] ms')
  ∧ ∃ ms',
      @Actions.fixed_delay stub_collaborators
        (VList [VDict [("method", VStr "GET"); ("url", VStr "/x")]]) (VInt 300)
        stub_configuration (stub_world [get_x; post_y])
      = (Ok (VList (acknowledged (stub_server [get_x; post_y]) [GetMappings]
                      (writes ms'))),
         {| server := stub_server [get_x; post_y];
            calls := [GetMappings] ++ writes ms' |})
      ∧ Forall2 (response_changed (delay_changes (VInt 300))) [get_x] ms'.
Proof.
  split.
  - apply (proj1 (@fixed_delay_spec stub_collaborators [get_x; post_y] (VInt 300)
                    (stub_world [get_x; post_y])
                    ltac:(repeat constructor; vm_compute; eauto)
                    (stub_responsive _ _))).
  - apply (proj2 (@fixed_delay_spec stub_collaborators [get_x] (VInt 300)
                    {| server := stub_server [get_x; post_y]; calls := [GetMappings] |}
                    ltac:(repeat constructor; vm_compute; eauto)
                    (stub_responsive _ _))
             (VList [VDict [("method", VStr "GET"); ("url", VStr "/x")]])
             stub_configuration stub_configuration
             [VDict [("method", VStr "GET"); ("url", VStr "/x")]]
             (stub_world [get_x; post_y])).
    + reflexivity.
    + reflexivity.
    + reflexivity.
    + by vm_compute.
    + discriminate.
Defined.

Lemma filter_mappings_rejects_request_and_metadata_witness :
  @Actions._filter_mappings stub_collaborators
    (VDict [("request", VDict [("method", VStr "GET")]); ("metadata", VNone)])
    (stub_world [get_x])
  = (Raise ValueError, stub_world [get_x]).
Proof.
  apply (@filter_mappings_rejects_request_and_metadata stub_collaborators);
    vm_compute; eauto.
Defined.

Lemma update_mappings_status_code_empty_filter_witness :
  @Actions.update_mappings_status_code stub_collaborators (VStr "200") (VList [])
    stub_configuration (stub_world [get_x])
  = (Raise TypeError, stub_world [get_x]).
Proof.
  apply (@update_mappings_status_code_empty_filter stub_collaborators (VStr "200")
           stub_configuration stub_configuration);
    vm_compute; eauto.
Defined.

(** * More of the driver *)

(** ** Worlds *)

Lemma after_nil (w : World) : after w [] = w.
Proof. destruct w. unfold after. simpl. by rewrite app_nil_r. Qed.

Lemma after_after (w : World) (sent sent' : list call) :
  after (after w sent) sent' = after w (sent ++ sent').
Proof. unfold after. simpl. by rewrite app_assoc. Qed.

Lemma lists_after (w : World) (ms : list value) (sent : list call) :
  lists w ms → lists (after w sent) ms.
Proof. intros Hl. exact Hl. Qed.

Lemma responsive_after (w : World) (sent : list call) :
  responsive w → responsive (after w sent).
Proof. intros Hr. exact Hr. Qed.

Lemma mappings_listed (w : World) (ms : list value) :
  lists w ms → mappings w = (Ok (VList ms), after w [GetMappings]).
Proof.
  intros Hl. destruct (Hl (calls w)) as (json & Hjson & Hms).
  unfold mappings, mbind, st_bind, request, lift. rewrite Hjson. simpl.
  by rewrite Hms.
Qed.

Lemma update_mapping_after (id mapping : value) (w : World) :
  responsive w →
  update_mapping id mapping w
  = (Ok (answer (server w) (calls w ++ [PutMapping id mapping])),
     after w [PutMapping id mapping]).
Proof. apply update_mapping_responsive. Qed.

(** ** Exact match *)

Lemma exact_match_loop_none (ms : list value) (f : value) :
  Forall (request_differs f) ms → exact_match_loop ms f = Ok VNone.
Proof.
  induction 1 as [|m ms (r & Hr & Hne) _ IH]; simpl; [done|].
  by rewrite Hr; simpl; rewrite Hne.
Qed.

Lemma exact_match_loop_first (pre post : list value) (m f : value) :
  Forall (request_differs f) pre →
  request_is f m →
  exact_match_loop (pre ++ m :: post) f = Ok m.
Proof.
  intros Hpre (r & Hr & Heq).
  induction Hpre as [|x pre (rx & Hrx & Hne) _ IH]; simpl.
  - by rewrite Hr; simpl; rewrite Heq.
  - by rewrite Hrx; simpl; rewrite Hne.
Qed.

Lemma exact_match_fetched (f : value) (w w' : World) (ms : list value) :
  mappings w = (Ok (VList ms), w') →
  mapping_by_request_exact_match f w = (exact_match_loop ms f, w').
Proof.
  intros Hfetch. unfold mapping_by_request_exact_match, mbind, st_bind.
  by rewrite Hfetch.
Qed.

(** A mapping that was found is an object that passes for true. *)
Lemma request_is_truthy (f m : value) : request_is f m → truthy m = true.
Proof.
  intros (r & Hr & _). destruct m as [| | | | |d]; try discriminate.
  by destruct d.
Qed.

(** X1: [mapping_by_request_exact_match] makes one call, the listing, and
    returns the first mapping, in the order of the listing, whose request
    is equal to the one asked for; [None] when the request of every
    mapping differs from it. *)
Theorem exact_match_first_in_listing (f : value) (w w' : World) :
  (∀ pre m post,
     mappings w = (Ok (VList (pre ++ m :: post)), w') →
     Forall (request_differs f) pre →
     request_is f m →
     mapping_by_request_exact_match f w = (Ok m, w'))
  ∧ ∀ ms,
      mappings w = (Ok (VList ms), w') →
      Forall (request_differs f) ms →
      mapping_by_request_exact_match f w = (Ok VNone, w').
Proof.
  split.
  - intros pre m post Hfetch Hpre Hm.
    by rewrite (exact_match_fetched _ _ _ _ Hfetch), exact_match_loop_first.
  - intros ms Hfetch Hms.
    by rewrite (exact_match_fetched _ _ _ _ Hfetch), exact_match_loop_none.
Qed.

Lemma exact_match_first_in_listing_witness :
  mapping_by_request_exact_match
    (VDict [("url", VStr "/y"); ("method", VStr "POST")])
    (stub_world [get_x; post_y; post_y])
  = (Ok post_y, after (stub_world [get_x; post_y; post_y]) [GetMappings])
  ∧ mapping_by_request_exact_match (VDict [("method", VStr "POST")])
      (stub_world [get_x; post_y])
    = (Ok VNone, after (stub_world [get_x; post_y]) [GetMappings]).
Proof.
  split.
  - apply (proj1 (exact_match_first_in_listing _ _ _) [get_x] post_y [post_y]).
    + reflexivity.
    + repeat constructor. eexists. split; [reflexivity | by vm_compute].
    + eexists. split; [reflexivity | by vm_compute].
  - apply (proj2 (exact_match_first_in_listing _ _ _) [get_x; post_y]).
    + reflexivity.
    + repeat constructor; (eexists; split; [reflexivity | by vm_compute]).
Defined.

(** ** [random_delay] and [chunked_dribble_delay] *)

Lemma set_and_update_spec (key : string) (v m : value) (w : World) :
  well_formed m →
  responsive w →
  ∃ m',
    set_and_update key v m w
    = (Ok (answer (server w) (calls w ++ [PutMapping (id_of m) m'])),
       after w [PutMapping (id_of m) m'])
    ∧ response_changed [(key, v)] m m'.
Proof.
  intros [[id Hid] Hresp] Hlive.
  destruct (store2_response [] key v m m) as (m' & Hstore & Hchanged);
    [by apply response_changed_nil|].
  exists m'. split; [|done].
  assert (field m' "id" = Some id) as Hid'
    by (by rewrite (response_changed_id _ _ _ Hchanged)).
  unfold set_and_update, on_local, mbind, st_bind, lift.
  rewrite Hstore, (load_field _ _ _ Hid').
  rewrite update_mapping_after; [|done].
  unfold id_of. by rewrite Hid.
Qed.

(** X2: [random_delay] on a request that no listed mapping has returns
    [None] after the listing alone; on a request that a mapping has, it
    writes that mapping once, with [response.delayDistribution] bound to
    what it was given, dict or not, and the rest as it was, and returns
    what the server answered to the write. *)
Theorem random_delay_spec (f delayDistribution : value) (w w' : World) :
  (∀ ms,
     mappings w = (Ok (VList ms), w') →
     Forall (request_differs f) ms →
     random_delay f delayDistribution w = (Ok VNone, w'))
  ∧ ∀ pre m post,
      mappings w = (Ok (VList (pre ++ m :: post)), w') →
      Forall (request_differs f) pre →
      request_is f m →
      well_formed m →
      responsive w' →
      ∃ m',
        random_delay f delayDistribution w
        = (Ok (answer (server w') (calls w' ++ [PutMapping (id_of m) m'])),
           after w' [PutMapping (id_of m) m'])
        ∧ response_changed [("delayDistribution", delayDistribution)] m m'.
Proof.
  split.
  - intros ms Hfetch Hms. unfold random_delay, mbind, st_bind.
    rewrite (exact_match_fetched _ _ _ _ Hfetch), exact_match_loop_none; done.
  - intros pre m post Hfetch Hpre Hm Hwf Hlive.
    destruct (set_and_update_spec "delayDistribution" delayDistribution m w' Hwf Hlive)
      as (m' & Hset & Hchanged).
    exists m'. split; [|done]. unfold random_delay, mbind, st_bind.
    rewrite (exact_match_fetched _ _ _ _ Hfetch), exact_match_loop_first; [|done..].
    by rewrite (request_is_truthy _ _ Hm).
Qed.

Lemma random_delay_spec_witness :
  random_delay (VDict [("method", VStr "PUT")]) (VStr "no dict")
    (stub_world [get_x; post_y])
  = (Ok VNone, after (stub_world [get_x; post_y]) [GetMappings])
  ∧ ∃ m',
      random_delay (VDict [("method", VStr "POST"); ("url", VStr "/y")])
        (VStr "no dict") (stub_world [get_x; post_y])
      = (Ok (answer (stub_server [get_x; post_y])
               ([GetMappings] ++ [PutMapping (id_of post_y) m'])),
         after (after (stub_world [get_x; post_y]) [GetMappings])
           [PutMapping (id_of post_y) m'])
      ∧ response_changed [("delayDistribution", VStr "no dict")] post_y m'.
Proof.
  split.
  - apply (proj1 (random_delay_spec _ _ _ _) [get_x; post_y]).
    + reflexivity.
    + repeat constructor; (eexists; split; [reflexivity | by vm_compute]).
  - apply (proj2 (random_delay_spec _ _ (stub_world [get_x; post_y])
                    (after (stub_world [get_x; post_y]) [GetMappings]))
             [get_x] post_y []).
    + reflexivity.
    + repeat constructor. eexists. split; [reflexivity | by vm_compute].
    + eexists. split; [reflexivity | by vm_compute].
    + split; vm_compute; eauto.
    + apply stub_responsive.
Defined.

(** X3: [chunked_dribble_delay] checks its delay before it asks the server
    anything: a dict without [numberOfChunks] or without [totalDuration]
    gives [None] and no call; the default, [None], raises [TypeError], for
    [in] is asked of [None]. *)
Theorem chunked_dribble_delay_checks_first (f : value) (w : World) :
  (∀ spec,
     lookup_item "numberOfChunks" spec = None ∨ lookup_item "totalDuration" spec = None →
     chunked_dribble_delay f (VDict spec) w = (Ok VNone, w))
  ∧ chunked_dribble_delay f VNone w = (Raise TypeError, w).
Proof.
  split; [|done].
  intros spec Hmissing.
  assert (∀ key, lookup_item key spec = None → bool_decide (key ∈ keys spec) = false)
    as Hnot.
  { intros key Hkey. apply bool_decide_eq_false_2. rewrite elem_of_keys, Hkey.
    by intros [? ?]. }
  unfold chunked_dribble_delay, mbind, st_bind, lift, contains.
  destruct (bool_decide ("numberOfChunks" ∈ keys spec)) eqn:Hchunks; [|done].
  destruct Hmissing as [Hc|Hd].
  - by rewrite (Hnot _ Hc) in Hchunks.
  - cbn [negb]. by rewrite (Hnot _ Hd).
Qed.

Lemma chunked_dribble_delay_checks_first_witness :
  chunked_dribble_delay (VDict [("method", VStr "GET"); ("url", VStr "/x")])
    (VDict [("numberOfChunks", VInt 5)]) (stub_world [get_x])
  = (Ok VNone, stub_world [get_x]).
Proof.
  apply (proj1 (chunked_dribble_delay_checks_first _ _)). by right.
Defined.

Lemma chunked_dribble_delay_checked (f : value) (spec : list (string * value))
    (w : World) :
  is_Some (lookup_item "numberOfChunks" spec) →
  is_Some (lookup_item "totalDuration" spec) →
  chunked_dribble_delay f (VDict spec) w
  = (mapping_found ← mapping_by_request_exact_match f;
     if negb (truthy mapping_found) then mret VNone
     else set_and_update "chunkedDribbleDelay" (VDict spec) mapping_found) w.
Proof.
  intros Hchunks Hduration. unfold chunked_dribble_delay, contains.
  unfold mbind at 1, st_bind at 1, lift at 1.
  rewrite bool_decide_eq_true_2; [|by apply elem_of_keys]. cbn [negb].
  unfold mbind at 1, st_bind at 1, lift at 1.
  by rewrite bool_decide_eq_true_2; [|by apply elem_of_keys].
Qed.

(** X4: with both keys in the delay, [chunked_dribble_delay] on a request
    that a listed mapping has writes that mapping once, with
    [response.chunkedDribbleDelay] bound to the delay and the rest as it
    was, and returns what the server answered to the write; on a request
    that no mapping has it returns [None] after the listing alone. *)
Theorem chunked_dribble_delay_spec (f : value) (spec : list (string * value))
    (w w' : World) :
  is_Some (lookup_item "numberOfChunks" spec) →
  is_Some (lookup_item "totalDuration" spec) →
  (∀ ms,
     mappings w = (Ok (VList ms), w') →
     Forall (request_differs f) ms →
     chunked_dribble_delay f (VDict spec) w = (Ok VNone, w'))
  ∧ ∀ pre m post,
      mappings w = (Ok (VList (pre ++ m :: post)), w') →
      Forall (request_differs f) pre →
      request_is f m →
      well_formed m →
      responsive w' →
      ∃ m',
        chunked_dribble_delay f (VDict spec) w
        = (Ok (answer (server w') (calls w' ++ [PutMapping (id_of m) m'])),
           after w' [PutMapping (id_of m) m'])
        ∧ response_changed [("chunkedDribbleDelay", VDict spec)] m m'.
Proof.
  intros Hchunks Hduration.
  rewrite (chunked_dribble_delay_checked f spec w Hchunks Hduration). split.
  - intros ms Hfetch Hms. unfold mbind, st_bind.
    rewrite (exact_match_fetched _ _ _ _ Hfetch), exact_match_loop_none; done.
  - intros pre m post Hfetch Hpre Hm Hwf Hlive.
    destruct (set_and_update_spec "chunkedDribbleDelay" (VDict spec) m w' Hwf Hlive)
      as (m' & Hset & Hchanged).
    exists m'. split; [|done]. unfold mbind, st_bind.
    rewrite (exact_match_fetched _ _ _ _ Hfetch), exact_match_loop_first; [|done..].
    by rewrite (request_is_truthy _ _ Hm).
Qed.

Lemma chunked_dribble_delay_spec_witness :
  ∃ m',
    chunked_dribble_delay (VDict [("method", VStr "GET"); ("url", VStr "/x")])
      (VDict [("numberOfChunks", VInt 5); ("totalDuration", VInt 1000)])
      (stub_world [get_x; post_y])
    = (Ok (answer (stub_server [get_x; post_y])
             ([GetMappings] ++ [PutMapping (id_of get_x) m'])),
       after (after (stub_world [get_x; post_y]) [GetMappings])
         [PutMapping (id_of get_x) m'])
    ∧ response_changed
        [("chunkedDribbleDelay",
          VDict [("numberOfChunks", VInt 5); ("totalDuration", VInt 1000)])]
        get_x m'.
Proof.
  apply (proj2 (chunked_dribble_delay_spec
                  (VDict [("method", VStr "GET"); ("url", VStr "/x")])
                  [("numberOfChunks", VInt 5); ("totalDuration", VInt 1000)]
                  (stub_world [get_x; post_y])
                  (after (stub_world [get_x; post_y]) [GetMappings])
                  ltac:(vm_compute; eauto) ltac:(vm_compute; eauto))
           [] get_x [post_y]).
  - reflexivity.
  - constructor.
  - eexists. split; [reflexivity | by vm_compute].
  - split; vm_compute; eauto.
  - apply stub_responsive.
Defined.

(** ** [up] *)

Lemma lookup_del_item (key key' : string) (d : list (string * value)) :
  lookup_item key' (del_item key d)
  = if String.eqb key key' then None else lookup_item key' d.
Proof.
  unfold del_item. induction d as [|[k v] d IH]; simpl.
  - by destruct (String.eqb key key').
  - destruct (String.eqb_spec k key) as [->|Hne]; simpl.
    + rewrite IH. by destruct (String.eqb key key').
    + rewrite IH. destruct (String.eqb_spec k key') as [->|]; [|done].
      by rewrite (proj2 (String.eqb_neq key key')).
Qed.

Lemma del_item_absent (key : string) (d : list (string * value)) :
  lookup_item key d = None → del_item key d = d.
Proof.
  unfold del_item. induction d as [|[k v] d IH]; simpl; [done|].
  destruct (String.eqb_spec k key) as [->|Hne]; [discriminate|].
  intros Hnone. simpl. by rewrite IH.
Qed.

Lemma del_set_item (key : string) (v : value) (d : list (string * value)) :
  lookup_item key d = None → del_item key (set_item key v d) = d.
Proof.
  unfold del_item. induction d as [|[k u] d IH]; simpl.
  - by rewrite String.eqb_refl.
  - destruct (String.eqb_spec k key) as [->|Hne]; [discriminate|].
    intros Hnone. simpl. rewrite (proj2 (String.eqb_neq k key)); [|done].
    simpl. by rewrite IH.
Qed.

Lemma del_set_item_ne (key key' : string) (v : value) (d : list (string * value)) :
  key ≠ key' →
  lookup_item key d = None →
  del_item key' (set_item key v d) = set_item key v (del_item key' d).
Proof.
  intros Hne. unfold del_item. induction d as [|[k u] d IH]; simpl.
  - intros _. by rewrite (proj2 (String.eqb_neq key key')).
  - destruct (String.eqb_spec k key) as [->|Hk]; [discriminate|].
    intros Hnone. simpl. destruct (String.eqb_spec k key') as [->|Hk']; simpl.
    + by apply IH.
    + rewrite (proj2 (String.eqb_neq k key)); [|done]. by rewrite IH.
Qed.

(** One [if key in ...: del ...] on a mapping with a response block. *)
Lemma clear_key_response (key : string) (m : value) (resp : list (string * value)) :
  response_block m = Some resp →
  ∃ m', clear_key key m = (Ok tt, m')
        ∧ response_block m' = Some (del_item key resp)
        ∧ ∀ k, k ≠ "response" → field m' k = field m k.
Proof.
  unfold response_block, field. destruct m as [| | | | |d]; try discriminate.
  destruct (lookup_item "response" d) as [[| | | | |r]|] eqn:Hr; try discriminate.
  intros [= ->]. unfold clear_key, mbind, result_bind, getitem, contains, delitem.
  rewrite Hr. destruct (bool_decide (key ∈ keys resp)) eqn:Hin.
  - eexists. split; [reflexivity|]. split.
    + by rewrite lookup_set_item, String.eqb_refl.
    + intros k Hk. rewrite lookup_set_item.
      by rewrite (proj2 (String.eqb_neq "response" k)).
  - exists (VDict d). split; [done|]. split; [|done].
    rewrite Hr, del_item_absent; [done|].
    apply bool_decide_eq_false_1 in Hin. rewrite elem_of_keys in Hin.
    destruct (lookup_item key resp); [|done]. destruct Hin. eauto.
Qed.

Lemma clear_delays_spec (m : value) :
  well_formed m →
  ∃ m', clear_delays m = (Ok (id_of m), m') ∧ delays_cleared m m'.
Proof.
  intros [[id Hid] [resp Hresp]].
  destruct (clear_key_response "fixedDelayMilliseconds" m resp Hresp)
    as (m1 & Hc1 & Hr1 & Hf1).
  destruct (clear_key_response "delayDistribution" m1 _ Hr1) as (m2 & Hc2 & Hr2 & Hf2).
  destruct (clear_key_response "chunkedDribbleDelay" m2 _ Hr2) as (m3 & Hc3 & Hr3 & Hf3).
  assert (∀ k, k ≠ "response" → field m3 k = field m k) as Hfields.
  { intros k Hk. by rewrite Hf3, Hf2, Hf1. }
  exists m3. split.
  - unfold clear_delays, mbind, st_bind.
    rewrite (load_field _ _ _ Hid), Hc1, Hc2, Hc3.
    unfold id_of. rewrite Hid. apply load_field. by rewrite Hfields.
  - eexists resp, _. split; [done|]. split; [exact Hr3|]. split; [|done].
    intros key. rewrite !lookup_del_item. unfold delay_keys.
    destruct (String.eqb_spec "chunkedDribbleDelay" key) as [<-|H3];
      [by rewrite bool_decide_eq_true_2 by set_solver|].
    destruct (String.eqb_spec "delayDistribution" key) as [<-|H2];
      [by rewrite bool_decide_eq_true_2 by set_solver|].
    destruct (String.eqb_spec "fixedDelayMilliseconds" key) as [<-|H1];
      [by rewrite bool_decide_eq_true_2 by set_solver|].
    rewrite bool_decide_eq_false_2; [done|].
    rewrite !elem_of_cons, elem_of_nil. intros [?|[?|[?|[]]]]; congruence.
Qed.

Lemma up_loop_none (ms fs ids : list value) (w : World) :
  lists w ms →
  Forall (λ f, Forall (request_differs f) ms) fs →
  up_loop fs ids w = (Ok (VList ids), after w (replicate (length fs) GetMappings)).
Proof.
  intros Hl Hfs. revert w Hl.
  induction Hfs as [|f fs Hf _ IH]; intros w Hl.
  - by rewrite after_nil.
  - cbn [up_loop]. unfold mbind at 1, st_bind at 1.
    rewrite (exact_match_fetched _ _ _ _ (mappings_listed _ _ Hl)).
    rewrite exact_match_loop_none; [|done]. cbn [truthy negb].
    rewrite IH; [|by apply lists_after]. by rewrite after_after.
Qed.

Lemma up_loop_found (ms fs found ids : list value) (w : World) :
  lists w ms →
  responsive w →
  Forall2 (finds ms) fs found →
  Forall well_formed found →
  ∃ found',
    up_loop fs ids w
    = (Ok (VList (ids ++ (id_of <$> found))), after w (found_and_written found'))
    ∧ Forall2 delays_cleared found found'.
Proof.
  intros Hl Hlive Hfs. revert ids w Hl Hlive.
  induction Hfs as [|f m fs found (pre & post & -> & Hpre & Hm) _ IH];
    intros ids w Hl Hlive Hwf.
  - exists []. split; [|done]. by rewrite after_nil, app_nil_r.
  - apply Forall_cons in Hwf as [Hwfm Hwf].
    destruct (clear_delays_spec m Hwfm) as (m' & Hclear & Hcleared).
    destruct (IH (ids ++ [id_of m])
                (after (after w [GetMappings]) [PutMapping (id_of m) m']))
      as (found' & Hloop & Hall); [done..|].
    exists (m' :: found'). split; [|by constructor].
    assert (id_of m' = id_of m) as Hid.
    { destruct Hcleared as (_ & _ & _ & _ & _ & Hfields).
      unfold id_of. by rewrite Hfields. }
    cbn [up_loop]. unfold mbind at 1, st_bind at 1.
    rewrite (exact_match_fetched _ _ _ _ (mappings_listed _ _ Hl)).
    rewrite exact_match_loop_first; [|done..].
    rewrite (request_is_truthy _ _ Hm). cbn [negb].
    unfold mbind at 1, st_bind at 1, lift at 1, on_local. rewrite Hclear.
    unfold mbind at 1, st_bind at 1.
    rewrite update_mapping_after; [|done]. rewrite Hloop.
    unfold found_and_written. cbn [mbind list_bind]. rewrite Hid.
    rewrite !after_after, <- !app_assoc. done.
Qed.

(** X5: [up] on filters none of which is the request of a listed mapping
    returns the empty list; it asks for the listing once per filter and
    writes nothing. *)
Theorem up_nothing_found (ms fs : list value) (w : World) :
  lists w ms →
  Forall (λ f, Forall (request_differs f) ms) fs →
  up (VList fs) w = (Ok (VList []), after w (replicate (length fs) GetMappings)).
Proof.
  intros Hl Hfs. unfold up, mbind, st_bind, lift. cbn [iter].
  by apply up_loop_none with ms.
Qed.

Lemma up_nothing_found_witness :
  up (VList [VDict [("method", VStr "GET")]; VDict [("url", VStr "/z")]])
    (stub_world [get_x; post_y])
  = (Ok (VList []), after (stub_world [get_x; post_y]) [GetMappings; GetMappings]).
Proof.
  apply (up_nothing_found [get_x; post_y]).
  - intros sent. eexists. cbn [server stub_world]. unfold stub_server.
    rewrite last_snoc. split; reflexivity.
  - repeat constructor; (eexists; split; [reflexivity | by vm_compute]).
Defined.

(** X6: when every filter is the request of a listed mapping, [up] writes
    each mapping found back without the keys [fixedDelayMilliseconds],
    [delayDistribution] and [chunkedDribbleDelay] in its response block,
    the rest as it was, after a listing of its own; it returns the ids of
    all of them, whatever the server answered to the writes. *)
Theorem up_clears_delays (ms fs found : list value) (w : World) :
  lists w ms →
  responsive w →
  Forall2 (finds ms) fs found →
  Forall well_formed found →
  ∃ found',
    up (VList fs) w
    = (Ok (VList (id_of <$> found)), after w (found_and_written found'))
    ∧ Forall2 delays_cleared found found'.
Proof.
  intros Hl Hlive Hfs Hwf. unfold up, mbind, st_bind, lift. cbn [iter].
  exact (up_loop_found ms fs found [] w Hl Hlive Hfs Hwf).
Qed.

Lemma stub_lists (ms : list value) (sent : list call) :
  lists {| server := stub_server ms; calls := sent |} ms.
Proof.
  intros sent'. eexists. cbn [server]. unfold stub_server.
  rewrite last_snoc. split; reflexivity.
Qed.

Lemma up_clears_delays_witness :
  ∃ found',
    up (VList [VDict [("method", VStr "POST"); ("url", VStr "/y")]])
      (stub_world [get_x; post_y])
    = (Ok (VList (id_of <$> [post_y])),
       after (stub_world [get_x; post_y]) (found_and_written found'))
    ∧ Forall2 delays_cleared [post_y] found'.
Proof.
  apply (up_clears_delays [get_x; post_y]).
  - apply stub_lists.
  - apply stub_responsive.
  - repeat constructor. exists [get_x], []. split; [done|]. split.
    + repeat constructor. eexists. split; [reflexivity | by vm_compute].
    + eexists. split; [reflexivity | by vm_compute].
  - repeat constructor; vm_compute; eauto.
Defined.

(** *** [up] after [fixed_delay] *)

Lemma store2_explicit (key : string) (v : value) (d resp : list (string * value)) :
  lookup_item "response" d = Some (VDict resp) →
  store2 "response" key v (VDict d)
  = (Ok tt, VDict (set_item "response" (VDict (set_item key v resp)) d)).
Proof. intros Hr. unfold store2, setitem2. cbn -[set_item]. by rewrite Hr. Qed.

Lemma set_item_twice (key : string) (u v : value) (d : list (string * value)) :
  set_item key v (set_item key u d) = set_item key v d.
Proof.
  induction d as [|[k x] d IH]; simpl.
  - by rewrite String.eqb_refl.
  - destruct (String.eqb_spec k key) as [->|Hne]; simpl.
    + by rewrite String.eqb_refl.
    + rewrite (proj2 (String.eqb_neq k key)); [|done]. by rewrite IH.
Qed.

Lemma set_item_same (key : string) (v : value) (d : list (string * value)) :
  lookup_item key d = Some v → set_item key v d = d.
Proof.
  induction d as [|[k x] d IH]; simpl; [done|].
  destruct (String.eqb_spec k key) as [->|Hne].
  - by intros [= ->].
  - intros Hl. by rewrite IH.
Qed.

(** What [fixed_delay] adds to a mapping without delays, [up]'s clearing
    takes away: the mapping is as before. *)
Lemma clear_delays_set_fixed_delay (fixedDelayMilliseconds m m' id : value) :
  well_formed m →
  (∀ resp key, response_block m = Some resp → key ∈ delay_keys →
               lookup_item key resp = None) →
  set_fixed_delay fixedDelayMilliseconds m = (Ok id, m') →
  clear_delays m' = (Ok (id_of m), m).
Proof.
  intros [[i Hid] [resp Hresp]] Hnone.
  unfold response_block, field in Hresp. destruct m as [| | | | |d]; try discriminate.
  destruct (lookup_item "response" d) as [[| | | | |r]|] eqn:Hr; try discriminate.
  injection Hresp as ->.
  assert (∀ key, key ∈ delay_keys → lookup_item key resp = None) as Habsent.
  { intros key. apply Hnone. unfold response_block, field. by rewrite Hr. }
  pose proof (Habsent "fixedDelayMilliseconds" ltac:(unfold delay_keys; set_solver)) as H1.
  pose proof (Habsent "delayDistribution" ltac:(unfold delay_keys; set_solver)) as H2.
  pose proof (Habsent "chunkedDribbleDelay" ltac:(unfold delay_keys; set_solver)) as H3.
  unfold set_fixed_delay, mbind, st_bind.
  rewrite (store2_explicit _ _ _ _ Hr).
  erewrite store2_explicit; [|by rewrite lookup_set_item, String.eqb_refl].
  rewrite set_item_twice. unfold load at 1. intros [= _ <-].
  set (resp2 := set_item "delayDistribution" VNone
                  (set_item "fixedDelayMilliseconds" fixedDelayMilliseconds resp)).
  assert (∀ key r, key ∈ keys r →
            clear_key key (VDict (set_item "response" (VDict r) d))
            = (Ok tt, VDict (set_item "response" (VDict (del_item key r)) d))) as Hdel.
  { intros key r Hin. unfold clear_key, mbind, result_bind, getitem, contains, delitem.
    rewrite lookup_set_item, String.eqb_refl. rewrite bool_decide_eq_true_2; [|done].
    cbn [setitem]. by rewrite set_item_twice. }
  assert (∀ key r, lookup_item key r = None →
            clear_key key (VDict (set_item "response" (VDict r) d))
            = (Ok tt, VDict (set_item "response" (VDict r) d))) as Hkeep.
  { intros key r Hout. unfold clear_key, mbind, result_bind, getitem, contains.
    rewrite lookup_set_item, String.eqb_refl. rewrite bool_decide_eq_false_2; [done|].
    rewrite elem_of_keys, Hout. by intros [? ?]. }
  assert (∀ r, load "id" (VDict (set_item "response" (VDict r) d))
               = (Ok i, VDict (set_item "response" (VDict r) d))) as Hload.
  { intros r. apply load_field. unfold field. rewrite lookup_set_item. exact Hid. }
  unfold clear_delays, mbind, st_bind.
  rewrite Hload, Hdel.
  2:{ apply elem_of_keys. unfold resp2. rewrite !lookup_set_item. simpl. eauto. }
  unfold resp2. rewrite del_set_item_ne; [|done|].
  2:{ by rewrite lookup_set_item. }
  rewrite del_set_item; [|done].
  rewrite Hdel.
  2:{ apply elem_of_keys. rewrite lookup_set_item, String.eqb_refl. eauto. }
  rewrite del_set_item; [|done].
  rewrite Hkeep; [|done].
  rewrite (set_item_same _ _ _ Hr).
  unfold id_of. rewrite Hid. apply load_field. exact Hid.
Qed.

(** X7: [up] undoes [fixed_delay].  Take a mapping without delay keys in
    its response block and let [fixed_delay] change it; when the server
    lists the mapping as changed, [up] on the request of the mapping
    writes back the mapping as it was before [fixed_delay]. *)
Theorem up_undoes_fixed_delay (m m' fixedDelayMilliseconds f ids : value)
    (pre post : list value) (w0 w1 w : World) :
  well_formed m →
  (∀ resp key, response_block m = Some resp → key ∈ delay_keys →
               lookup_item key resp = None) →
  request_is f m →
  fixed_delay (VList [m]) fixedDelayMilliseconds w0 = (Ok ids, VList [m'], w1) →
  lists w (pre ++ m' :: post) →
  Forall (request_differs f) pre →
  responsive w →
  up (VList [f]) w
  = (Ok (VList [id_of m]), after w [GetMappings; PutMapping (id_of m) m]).
Proof.
  intros Hwf Hnone Hm Hdelay Hl Hpre Hlive.
  destruct (set_fixed_delay_spec fixedDelayMilliseconds m Hwf) as (m'' & Hset & Hchanged).
  assert (m'' = m') as ->.
  { unfold fixed_delay in Hdelay. cbn [iter fixed_delay_loop] in Hdelay.
    rewrite Hset in Hdelay.
    destruct (update_mapping (id_of m) m'' w0) as [[r|e] w']; by injection Hdelay. }
  assert (request_is f m') as Hm'.
  { destruct Hm as (r & Hr & Heq). exists r. split; [|done].
    destruct Hchanged as (resp & resp' & _ & Hresp' & _ & Hfields).
    specialize (Hfields "request" ltac:(done)).
    unfold response_block, field in Hresp'.
    destruct m' as [| | | | |d']; try discriminate.
    destruct m as [| | | | |d]; try discriminate.
    unfold getitem in *. cbn [field] in Hfields. by rewrite Hfields. }
  pose proof (clear_delays_set_fixed_delay _ _ _ _ Hwf Hnone Hset) as Hclear.
  unfold up, mbind at 1, st_bind at 1, lift at 1. cbn [iter up_loop].
  unfold mbind at 1, st_bind at 1.
  rewrite (exact_match_fetched _ _ _ _ (mappings_listed _ _ Hl)).
  rewrite exact_match_loop_first; [|done..].
  rewrite (request_is_truthy _ _ Hm'). cbn [negb].
  unfold mbind at 1, st_bind at 1, lift at 1, on_local. rewrite Hclear.
  unfold mbind at 1, st_bind at 1.
  rewrite update_mapping_after; [|done].
  unfold mret, st_ret. by rewrite after_after.
Qed.

Lemma up_undoes_fixed_delay_witness :
  ∃ m',
    fst (fixed_delay (VList [get_x]) (VInt 300) (stub_world [get_x]))
    = (Ok (VList [VInt 1]), VList [m'])
    ∧ up (VList [VDict [("url", VStr "/x"); ("method", VStr "GET")]])
        (stub_world [post_y; m'])
      = (Ok (VList [id_of get_x]),
         after (stub_world [post_y; m']) [GetMappings; PutMapping (id_of get_x) get_x]).
Proof.
  eexists. split; [by vm_compute|].
  eapply (up_undoes_fixed_delay get_x _ (VInt 300) _ (VList [VInt 1]) [post_y] []
            (stub_world [get_x])).
  - split; vm_compute; eauto.
  - intros resp key [= <-] Hkey. unfold delay_keys in Hkey.
    repeat (apply elem_of_cons in Hkey as [->|Hkey]; [done|]). inversion Hkey.
  - eexists. split; [reflexivity | by vm_compute].
  - by vm_compute.
  - apply stub_lists.
  - repeat constructor. eexists. split; [reflexivity | by vm_compute].
  - apply stub_responsive.
Defined.

(** ** A listing that is refused *)

(** X8: when the server answers the listing with a status other than 200,
    [mappings] raises [TypeError] (its message calls the string [r.text])
    and returns no empty list; so do, after that one call, all the methods
    that list: [filter_mappings], [filter_mapping],
    [mapping_by_request_exact_match], [random_delay],
    [chunked_dribble_delay] with a delay that has its two keys, and [up]
    with a filter to look for. *)
Theorem listing_refused_raises (w : World) (status_code : Z) (json : value) :
  server w (calls w ++ [GetMappings]) = Response status_code json →
  status_code ≠ 200 →
  mappings w = (Raise TypeError, after w [GetMappings])
  ∧ (∀ f strict limit,
       filter_mappings f strict limit w = (Raise TypeError, after w [GetMappings]))
  ∧ (∀ f strict, filter_mapping f strict w = (Raise TypeError, after w [GetMappings]))
  ∧ (∀ f, mapping_by_request_exact_match f w = (Raise TypeError, after w [GetMappings]))
  ∧ (∀ f delayDistribution,
       random_delay f delayDistribution w = (Raise TypeError, after w [GetMappings]))
  ∧ (∀ f spec,
       is_Some (lookup_item "numberOfChunks" spec) →
       is_Some (lookup_item "totalDuration" spec) →
       chunked_dribble_delay f (VDict spec) w = (Raise TypeError, after w [GetMappings]))
  ∧ ∀ f fs, up (VList (f :: fs)) w = (Raise TypeError, after w [GetMappings]).
Proof.
  intros Hanswer Hstatus.
  assert (mappings w = (Raise TypeError, after w [GetMappings])) as Hlisting.
  { unfold mappings, mbind, st_bind, request. rewrite Hanswer.
    by rewrite (proj2 (Z.eqb_neq status_code 200)). }
  assert (∀ f, mapping_by_request_exact_match f w
               = (Raise TypeError, after w [GetMappings])) as Hexact.
  { intros f. unfold mapping_by_request_exact_match, mbind, st_bind.
    by rewrite Hlisting. }
  split; [done|]. split; [|split; [|split; [done|split; [|split]]]].
  - intros f strict limit. unfold filter_mappings, mbind, st_bind. by rewrite Hlisting.
  - intros f strict. unfold filter_mapping, filter_mappings, mbind, st_bind.
    by rewrite Hlisting.
  - intros f dd. unfold random_delay, mbind, st_bind. by rewrite Hexact.
  - intros f spec Hchunks Hduration.
    rewrite chunked_dribble_delay_checked; [|done..].
    unfold mbind, st_bind. by rewrite Hexact.
  - intros f fs. unfold up, mbind at 1, st_bind at 1, lift at 1. cbn [iter up_loop].
    unfold mbind, st_bind. by rewrite Hexact.
Qed.

Lemma listing_refused_raises_witness :
  mappings {| server := λ _, Response 500 VNone; calls := [] |}
  = (Raise TypeError,
     after {| server := λ _, Response 500 VNone; calls := [] |} [GetMappings]).
Proof.
  apply (proj1 (listing_refused_raises
                  {| server := λ _, Response 500 VNone; calls := [] |} 500 VNone
                  eq_refl ltac:(done))).
Defined.

(** ** Equality of objects, and exact match against strict match *)

Lemma value_nested_ind (P : value → Prop) :
  P VNone →
  (∀ b, P (VBool b)) →
  (∀ n, P (VInt n)) →
  (∀ s, P (VStr s)) →
  (∀ xs, Forall P xs → P (VList xs)) →
  (∀ d, Forall (λ kv, P kv.2) d → P (VDict d)) →
  ∀ v, P v.
Proof.
  intros HNone HBool HInt HStr HList HDict.
  refine (fix IH (v : value) : P v :=
    match v with
    | VNone => HNone
    | VBool b => HBool b
    | VInt n => HInt n
    | VStr s => HStr s
    | VList xs =>
        HList xs
          ((fix go (xs : list value) : Forall P xs :=
              match xs with
              | [] => Forall_nil_2 P
              | x :: xs' => Forall_cons_2 P x xs' (IH x) (go xs')
              end) xs)
    | VDict d =>
        HDict d
          ((fix go (d : list (string * value)) : Forall (λ kv, P kv.2) d :=
              match d with
              | [] => Forall_nil_2 (λ kv, P kv.2)
              | kv :: d' => Forall_cons_2 (λ kv, P kv.2) kv d' (IH kv.2) (go d')
              end) d)
    end).
Qed.

Lemma py_eq_list (xs ys : list value) :
  py_eq (VList xs) (VList ys) = true ↔ Forall2 (λ x y, py_eq x y = true) xs ys.
Proof.
  revert ys. induction xs as [|x xs IH]; intros [|y ys]; cbn -[py_eq].
  - split; [constructor | done].
  - split; [done | intros H; inversion H].
  - split; [done | intros H; inversion H].
  - change (py_eq (VList (x :: xs)) (VList (y :: ys)))
      with (py_eq x y && py_eq (VList xs) (VList ys)).
    rewrite andb_true_iff, IH. split.
    + intros [? ?]. by constructor.
    + intros H. by inversion H.
Qed.

Lemma py_eq_dict_unfold (d e : list (string * value)) :
  py_eq (VDict d) (VDict e) = (size (keys d) =? size (keys e))%nat && items_eq e d.
Proof. reflexivity. Qed.

Lemma items_eq_spec (d e : list (string * value)) :
  items_eq e d = true
  ↔ Forall (λ kv, ∃ w, lookup_item kv.1 e = Some w ∧ py_eq kv.2 w = true) d.
Proof.
  induction d as [|[k v] d IH]; cbn -[py_eq].
  - split; [constructor | done].
  - destruct (lookup_item k e) as [w|] eqn:Hk.
    + rewrite andb_true_iff, IH. split.
      * intros [? ?]. constructor; [|done]. exists w. cbn [fst snd]. by rewrite Hk.
      * intros H. inversion H as [|? ? (w' & Hw' & Heq) Hd]; subst.
        cbn in Hw'. rewrite Hk in Hw'. injection Hw' as <-. done.
    + split; [done|]. intros H. inversion H as [|? ? (w' & Hw' & _) _]; subst.
      cbn in Hw'. congruence.
Qed.

Lemma py_eq_dict (d e : list (string * value)) :
  py_eq (VDict d) (VDict e) = true
  ↔ size (keys d) = size (keys e)
    ∧ Forall (λ kv, ∃ w, lookup_item kv.1 e = Some w ∧ py_eq kv.2 w = true) d.
Proof. by rewrite py_eq_dict_unfold, andb_true_iff, Nat.eqb_eq, items_eq_spec. Qed.

(** Dicts that are equal have the same keys. *)
Lemma py_eq_dict_keys (d e : list (string * value)) :
  py_eq (VDict d) (VDict e) = true → keys d = keys e.
Proof.
  rewrite py_eq_dict. intros [Hsize Hall].
  apply set_subseteq_size_eq; [|by rewrite Hsize].
  intros k Hk. apply elem_of_keys in Hk as [v Hv].
  apply lookup_item_elem_of in Hv. rewrite Forall_forall in Hall.
  destruct (Hall _ Hv) as (w & Hw & _). apply elem_of_keys. eauto.
Qed.

Lemma lookup_item_NoDup (k : string) (w : value) (e : list (string * value)) :
  NoDup (e.*1) → (k, w) ∈ e → lookup_item k e = Some w.
Proof.
  induction e as [|[k' w'] e IH]; [intros _ Hin; inversion Hin|].
  cbn [fmap list_fmap fst]. rewrite NoDup_cons. intros [Hnotin Hnodup] Hin.
  apply elem_of_cons in Hin as [[= -> ->]|Hin]; cbn [lookup_item].
  - by rewrite String.eqb_refl.
  - destruct (String.eqb_spec k' k) as [->|Hne]; [|by apply IH].
    destruct Hnotin. apply list_elem_of_fmap. by exists (k, w).
Qed.

Lemma well_keyed_dict (e : list (string * value)) :
  well_keyed (VDict e) = true
  ↔ NoDup (e.*1) ∧ ∀ k w, (k, w) ∈ e → well_keyed w = true.
Proof.
  cbn [well_keyed]. rewrite andb_true_iff, bool_decide_eq_true, forallb_forall.
  split; intros [Hnodup Hall]; (split; [done|]).
  - intros k w Hin. apply (Hall (k, w)). by apply list_elem_of_In.
  - intros [k w] Hin. apply (Hall k w). by apply list_elem_of_In.
Qed.

(** [==] can be turned around, on objects without a key twice. *)
Lemma py_eq_sym (a b : value) :
  well_keyed b = true → py_eq a b = true → py_eq b a = true.
Proof.
  revert b. induction a as [|x|n|s|xs IH|d IH] using value_nested_ind;
    intros [|y|m|t|ys|e] Hwk; try done.
  - cbn. by destruct x, y.
  - cbn. by rewrite Z.eqb_sym.
  - cbn. by rewrite Z.eqb_sym.
  - cbn. by rewrite Z.eqb_sym.
  - cbn. by rewrite String.eqb_sym.
  - rewrite !py_eq_list. cbn [well_keyed] in Hwk. rewrite forallb_forall in Hwk.
    intros Hall. revert IH Hwk.
    induction Hall as [|x y xs ys Hxy _ IHall]; intros IH Hwk; [constructor|].
    apply Forall_cons in IH as [IHx IHxs]. constructor.
    + apply IHx; [|done]. apply Hwk. by left.
    + apply IHall; [done|]. intros z Hz. apply Hwk. by right.
  - intros Heq. pose proof (py_eq_dict_keys _ _ Heq) as Hkeys.
    apply py_eq_dict in Heq as [Hsize Hall].
    apply well_keyed_dict in Hwk as [Hnodup Hwk].
    apply py_eq_dict. split; [done|].
    rewrite Forall_forall in Hall, IH. apply Forall_forall. intros [k w] Hin.
    assert (k ∈ keys d) as [v Hv]%elem_of_keys.
    { rewrite Hkeys. apply elem_of_keys. rewrite (lookup_item_NoDup k w e); eauto. }
    exists v. split; [done|]. apply lookup_item_elem_of in Hv.
    destruct (Hall _ Hv) as (w' & Hw' & Hvw). cbn [fst snd] in Hw', Hvw.
    rewrite (lookup_item_NoDup k w e) in Hw'; [|done..]. injection Hw' as <-.
    apply (IH _ Hv); [by apply (Hwk k) | done].
Qed.

Lemma exact_match_loop_found (ms : list value) (f m : value) :
  exact_match_loop ms f = Ok m → m = VNone ∨ request_is f m.
Proof.
  induction ms as [|x ms IH]; cbn [exact_match_loop].
  - intros [= <-]. by left.
  - destruct (getitem x "request") as [r|] eqn:Hr; [|done]. cbn.
    destruct (py_eq r f) eqn:Heq; [|exact IH].
    intros [= <-]. right. by exists r.
Qed.

(** X9: an exact match is a strict match.  The mapping that
    [mapping_by_request_exact_match] returns for a filter passes the test
    that [filter_mappings] makes of it in strict mode with the same
    filter. *)
Theorem exact_match_is_strict_match (f : list (string * value)) (m : value)
    (w w' : World) :
  well_keyed (VDict f) = true →
  mapping_by_request_exact_match (VDict f) w = (Ok m, w') →
  m ≠ VNone →
  matches m (VDict f) true = Ok true.
Proof.
  intros Hwk Hexact Hfound.
  assert (request_is (VDict f) m) as (r & Hr & Heq).
  { unfold mapping_by_request_exact_match, mbind, st_bind, lift in Hexact.
    destruct (mappings w) as [[ms|] w1]; [|done].
    destruct (iter ms) as [todo|]; [|done].
    destruct (exact_match_loop todo (VDict f)) as [m0|] eqn:Hloop; [|done].
    injection Hexact as -> _.
    by destruct (exact_match_loop_found _ _ _ Hloop). }
  destruct r as [| | | | |node]; try done.
  destruct m as [| | | | |d]; try done. unfold getitem in Hr.
  destruct (lookup_item "request" d) as [r|] eqn:Hreq; [|done]. injection Hr as ->.
  rewrite (matches_strict _ node f); [|by cbn; rewrite Hreq].
  destruct (strict_filter_spec node f) as (b & -> & Hb). f_equal. apply Hb.
  pose proof (py_eq_dict_keys _ _ Heq) as Hkeys.
  apply py_eq_dict in Heq as [_ Hall]. rewrite Forall_forall in Hall.
  apply well_keyed_dict in Hwk as [Hnodup Hwk].
  intros key fv Hfv.
  assert (key ∈ keys node) as [comp Hcomp]%elem_of_keys.
  { rewrite Hkeys. apply elem_of_keys. eauto. }
  exists comp. split; [done|].
  destruct (Hall _ (lookup_item_elem_of _ _ _ Hcomp)) as (w0 & Hw0 & Hcw).
  cbn [fst snd] in Hw0, Hcw. rewrite Hfv in Hw0. injection Hw0 as <-.
  apply py_eq_sym; [|done]. apply (Hwk key). by apply lookup_item_elem_of.
Qed.

Lemma exact_match_is_strict_match_witness :
  matches post_y (VDict [("url", VStr "/y"); ("method", VStr "POST")]) true = Ok true.
Proof.
  apply (exact_match_is_strict_match _ post_y (stub_world [get_x; post_y])
           (after (stub_world [get_x; post_y]) [GetMappings])).
  - by vm_compute.
  - by vm_compute.
  - done.
Defined.

(** ** The two predicates on plain filters *)

Lemma recursive_filter_items_scalar (node f its : list (string * value)) :
  NoDup (f.*1) →
  (∀ kv, kv ∈ its → kv ∈ f) →
  Forall (λ kv, scalar kv.2 = true) its →
  (fix loop (ks : list string) : result bool :=
     match ks with
     | [] => Ok true
     | key :: rest =>
         fv ← getitem (VDict f) key;
         comp ← get (VDict node) key;
         if negb (py_eq fv comp) then Ok false else loop rest
     end) (its.*1)
  = recursive_filter_items (VDict node) its.
Proof.
  intros Hnodup Hsub Hscalar.
  induction Hscalar as [|[k v] its Hv _ IH]; [done|].
  cbn [fmap list_fmap fst]. cbn -[py_eq recursive_filter get] .
  rewrite (lookup_item_NoDup k v f); [|done|apply Hsub; by left].
  cbn -[py_eq recursive_filter].
  rewrite <- IH; [|intros kv Hkv; apply Hsub; by right].
  by destruct v.
Qed.

(** X10: on a filter whose values are neither lists nor dicts, the strict
    predicate and the recursive predicate are one: they return the same on
    every node. *)
Theorem predicates_agree_on_scalars (node f : list (string * value)) :
  well_keyed (VDict f) = true →
  Forall (λ kv, scalar kv.2 = true) f →
  strict_filter (VDict node) (VDict f) = recursive_filter (VDict node) (VDict f).
Proof.
  intros [Hnodup _]%well_keyed_dict Hscalar.
  rewrite recursive_filter_unfold. unfold strict_filter. cbn [keys_of mbind result_bind].
  destruct (negb _); [done|].
  by apply recursive_filter_items_scalar.
Qed.

Lemma predicates_agree_on_scalars_witness :
  strict_filter (VDict [("method", VStr "GET"); ("url", VStr "/x")])
    (VDict [("url", VStr "/x"); ("method", VStr "GET")])
  = recursive_filter (VDict [("method", VStr "GET"); ("url", VStr "/x")])
      (VDict [("url", VStr "/x"); ("method", VStr "GET")]).
Proof.
  apply predicates_agree_on_scalars.
  - by vm_compute.
  - by repeat constructor.
Defined.

(** ** [update_fault] *)

Lemma set_fault_spec (fault m : value) :
  well_formed m →
  ∃ m', set_fault fault m = (Ok (id_of m), m')
        ∧ response_changed [("fault", fault)] m m'.
Proof.
  intros [[id Hid] Hresp].
  destruct (store2_response [] "fault" fault m m) as (m' & Hstore & Hchanged);
    [by apply response_changed_nil|].
  exists m'. split; [|done].
  unfold set_fault, mbind, st_bind, mret, st_ret.
  rewrite (load_field _ _ _ Hid), Hstore. unfold id_of. by rewrite Hid.
Qed.

Lemma update_fault_loop_accepted (fault : value) (ms ids : list value) (w : World) :
  Forall well_formed ms →
  accepts_writes w →
  ∃ ms',
    update_fault_loop ms fault ids w
    = (Ok (VList (ids ++ (id_of <$> ms))), ms', after w (writes ms'))
    ∧ Forall2 (response_changed [("fault", fault)]) ms ms'.
Proof.
  intros Hwf. revert ids w.
  induction Hwf as [|m ms Hm _ IH]; intros ids w Hacc.
  - exists []. by rewrite after_nil, app_nil_r.
  - destruct (set_fault_spec fault m Hm) as (m' & Hset & Hchanged).
    destruct (update_mapping_accepted (id_of m) m' w Hacc) as (json & Hput & Htruthy).
    destruct (IH (ids ++ [id_of m]) (after w [PutMapping (id_of m) m']))
      as (ms' & Hloop & Hall); [exact Hacc|].
    exists (m' :: ms'). split; [|by constructor].
    assert (id_of m' = id_of m) as Hid
      by (unfold id_of; by rewrite (response_changed_id _ _ _ Hchanged)).
    cbn [update_fault_loop]. rewrite Hset, Hput, Htruthy.
    fold (after w [PutMapping (id_of m) m']). rewrite Hloop.
    rewrite after_after, <- app_assoc. unfold writes. cbn [fmap list_fmap].
    by rewrite Hid.
Qed.

(** X11: with one of the four fault names, mappings that have an id and a
    response block, and a server that accepts the writes, [update_fault]
    writes every mapping back, in order, with [response.fault] bound to
    the name and the rest as it was, and returns the ids of all. *)
Theorem update_fault_sets_fault (ms : list value) (fault : value) (w : World) :
  py_in fault AVAILABLE_FAULTS = true →
  Forall well_formed ms →
  accepts_writes w →
  ∃ ms',
    update_fault (VList ms) fault w
    = (Ok (VList (id_of <$> ms)), VList ms', after w (writes ms'))
    ∧ Forall2 (response_changed [("fault", fault)]) ms ms'.
Proof.
  intros Hfault Hwf Hacc.
  destruct (update_fault_loop_accepted fault ms [] w Hwf Hacc) as (ms' & Hloop & Hall).
  exists ms'. split; [|done]. unfold update_fault. by rewrite Hfault, Hloop.
Qed.

Lemma update_fault_sets_fault_witness :
  ∃ ms',
    update_fault (VList [get_x; post_y]) (VStr "EMPTY_RESPONSE")
      (stub_world [get_x; post_y])
    = (Ok (VList (id_of <$> [get_x; post_y])), VList ms',
       after (stub_world [get_x; post_y]) (writes ms'))
    ∧ Forall2 (response_changed [("fault", VStr "EMPTY_RESPONSE")]) [get_x; post_y] ms'.
Proof.
  apply update_fault_sets_fault.
  - by vm_compute.
  - repeat constructor; vm_compute; eauto.
  - apply stub_accepts_writes.
Defined.

(** A run of the loop that ends with a list went through all its
    mappings, and the loop over more mappings goes on from there. *)
Lemma update_fault_loop_app (pre rest : list value) (fault : value)
    (ids ids' pre' : list value) (w w1 : World) :
  update_fault_loop pre fault ids w = (Ok (VList ids'), pre', w1) →
  update_fault_loop (pre ++ rest) fault ids w
  = let '(out, rest', w2) := update_fault_loop rest fault ids' w1 in
    (out, pre' ++ rest', w2).
Proof.
  revert ids pre' w. induction pre as [|m pre IH]; intros ids pre' w.
  - cbn. intros [= <- <- <-]. by destruct (update_fault_loop rest fault ids w) as [[? ?] ?].
  - cbn [update_fault_loop app].
    destruct (set_fault fault m) as [[id|e] m']; [|done].
    destruct (update_mapping id m' w) as [[r|e] w0]; [|done].
    destruct (truthy r); [|done].
    destruct (update_fault_loop pre fault (ids ++ [id]) w0) as [[out pre0] w3] eqn:Hpre.
    intros [= -> <- ->]. rewrite (IH _ _ _ Hpre).
    by destruct (update_fault_loop rest fault ids' w1) as [[? ?] ?].
Qed.

(** X12: [update_fault] stops at the first write the server does not
    acknowledge and takes nothing back.  When the mappings [pre] alone go
    through, and the write of the next mapping [m] is answered with
    nothing true, then on [pre], [m] and any mappings [post] the method
    returns [None]: [pre] and [m] are changed and were sent, in that
    order, and [post] is neither changed nor sent. *)
Theorem update_fault_stops_at_refusal (pre post pre' : list value)
    (m fault ids : value) (w w1 : World) :
  well_formed m →
  responsive w →
  update_fault (VList pre) fault w = (Ok ids, VList pre', w1) →
  ids ≠ VNone →
  (∀ payload, truthy (answer (server w) (calls w1 ++ [PutMapping (id_of m) payload]))
              = false) →
  ∃ m',
    update_fault (VList (pre ++ m :: post)) fault w
    = (Ok VNone, VList (pre' ++ m' :: post), after w1 [PutMapping (id_of m) m'])
    ∧ response_changed [("fault", fault)] m m'.
Proof.
  intros Hwf Hlive Hpre Hids Hrefused.
  destruct (set_fault_spec fault m Hwf) as (m' & Hset & Hchanged).
  exists m'. split; [|done].
  unfold update_fault in *.
  destruct (negb (py_in fault AVAILABLE_FAULTS)); [by injection Hpre as <- |].
  destruct (update_fault_loop pre fault [] w) as [[out pre0] w0] eqn:Hloop.
  injection Hpre as -> -> ->.
  assert (∃ l, ids = VList l ∧ server w1 = server w) as (l & -> & Hserver).
  { clear -Hloop Hids. revert Hloop. generalize (@nil value) as acc. revert w pre'.
    induction pre as [|x pre IH]; intros w pre' acc; cbn [update_fault_loop].
    - intros [= <- _ <-]. eauto.
    - destruct (set_fault fault x) as [[id|e] x']; [|done].
      destruct (update_mapping id x' w) as [[r|e] w0] eqn:Hput; [|done].
      assert (server w0 = server w) as <-.
      { unfold update_mapping, mbind, st_bind, request in Hput.
        destruct (server w _) as [st j|]; [|by injection Hput as _ <-].
        destruct (negb _); by injection Hput as _ <-. }
      destruct (truthy r); [|intros [= <- _ _]; done].
      destruct (update_fault_loop pre fault (acc ++ [id]) w0) as [[out pre0] w3] eqn:Hpre.
      intros [= -> _ ->]. by apply (IH _ _ _ Hpre). }
  rewrite (update_fault_loop_app _ (m :: post) _ _ _ _ _ _ Hloop).
  cbn [update_fault_loop]. rewrite Hset.
  rewrite update_mapping_after; [|intros sent; rewrite Hserver; apply Hlive].
  by rewrite Hserver, Hrefused.
Qed.

Lemma update_fault_stops_at_refusal_witness :
  ∃ pre' w1 m',
    update_fault (VList [get_x; post_y; get_x]) (VStr "EMPTY_RESPONSE")
      {| server := picky_server [] (VInt 2); calls := [] |}
    = (Ok VNone, VList (pre' ++ m' :: [get_x]), after w1 [PutMapping (id_of post_y) m'])
    ∧ response_changed [("fault", VStr "EMPTY_RESPONSE")] post_y m'.
Proof.
  eexists _, _.
  eapply (update_fault_stops_at_refusal [get_x] [get_x] _ post_y
            (VStr "EMPTY_RESPONSE") _
            {| server := picky_server [] (VInt 2); calls := [] |}).
  - split; vm_compute; eauto.
  - intros sent. cbn [server]. unfold picky_server.
    destruct (last sent) as [[|id payload]|]; [done| |done].
    by destruct (py_eq id (VInt 2)).
  - by vm_compute.
  - done.
  - intros payload. unfold answer. cbn [server calls]. unfold picky_server.
    by rewrite last_snoc.
Defined.

(** ** [update_status_code_and_body]: body file, body, or neither *)

Lemma update_status_code_and_body_loop_changes (changes : list (string * value))
    (status_code body body_file_name : value) (ms ids : list value) (w : World) :
  (∀ m, well_formed m →
     ∃ m', set_status_code_and_body status_code body body_file_name m = (Ok (id_of m), m')
           ∧ response_changed changes m m') →
  Forall well_formed ms →
  accepts_writes w →
  ∃ ms',
    update_status_code_and_body_loop ms status_code body body_file_name ids w
    = (Ok (VList (ids ++ (id_of <$> ms))), ms', after w (writes ms'))
    ∧ Forall2 (response_changed changes) ms ms'.
Proof.
  intros Hone Hwf. revert ids w.
  induction Hwf as [|m ms Hm _ IH]; intros ids w Hacc.
  - exists []. by rewrite after_nil, app_nil_r.
  - destruct (Hone m Hm) as (m' & Hset & Hchanged).
    destruct (update_mapping_accepted (id_of m) m' w Hacc) as (json & Hput & Htruthy).
    destruct (IH (ids ++ [id_of m]) (after w [PutMapping (id_of m) m']))
      as (ms' & Hloop & Hall); [exact Hacc|].
    exists (m' :: ms'). split; [|by constructor].
    assert (id_of m' = id_of m) as Hid
      by (unfold id_of; by rewrite (response_changed_id _ _ _ Hchanged)).
    cbn [update_status_code_and_body_loop]. rewrite Hset, Hput, Htruthy.
    fold (after w [PutMapping (id_of m) m']). rewrite Hloop.
    rewrite after_after, <- app_assoc. unfold writes. cbn [fmap list_fmap].
    by rewrite Hid.
Qed.

(** X13: with a valid status code and a server that accepts the writes,
    [update_status_code_and_body] given a body file name binds
    [response.bodyFileName] to it and [response.body] to [None], whatever
    body comes with it: the file wins over the body.  Given neither a body
    file name nor a body, it binds [response.status] and leaves the body
    and the body file of every mapping as they were. *)
Theorem body_file_wins_over_body {interpreter : Interpreter} (ms : list value)
    (status_code body body_file_name : value) (n : Z) (w : World) :
  int status_code = Ok n →
  100 ≤ n ≤ 599 →
  Forall well_formed ms →
  accepts_writes w →
  ∃ ms',
    update_status_code_and_body (VList ms) status_code body body_file_name w
    = (Ok (VList (id_of <$> ms)), VList ms', after w (writes ms'))
    ∧ (truthy body_file_name = true →
       Forall2 (response_changed [("body", VNone); ("bodyFileName", body_file_name);
                                  ("status", status_code)]) ms ms')
    ∧ (truthy body_file_name = false → truthy body = false →
       Forall2 (response_changed [("status", status_code)]) ms ms').
Proof.
  intros Hint [Hlo Hhi] Hwf Hacc.
  assert (update_status_code_and_body (VList ms) status_code body body_file_name w
          = let '(out, todo', w') :=
              update_status_code_and_body_loop ms status_code body
                body_file_name [] w in
            (out, VList todo', w')) as ->.
  { unfold update_status_code_and_body. rewrite Hint.
    by rewrite (proj2 (Z.ltb_ge n 100)), (proj2 (Z.ltb_ge 599 n)) by lia. }
  destruct (truthy body_file_name) eqn:Hfile; [|destruct (truthy body) eqn:Hbody].
  - destruct (update_status_code_and_body_loop_changes
                [("body", VNone); ("bodyFileName", body_file_name);
                 ("status", status_code)]
                status_code body body_file_name ms [] w) as (ms' & -> & Hall);
      [|done..|by exists ms'].
    intros m [[id Hid] Hresp].
    destruct (store2_response [] "status" status_code m m) as (m1 & Hs1 & Hc1);
      [by apply response_changed_nil|].
    destruct (store2_response _ "bodyFileName" body_file_name m m1 Hc1)
      as (m2 & Hs2 & Hc2).
    destruct (store2_response _ "body" VNone m m2 Hc2) as (m3 & Hs3 & Hc3).
    exists m3. split; [|exact Hc3].
    unfold set_status_code_and_body, mbind, st_bind, mret, st_ret.
    rewrite (load_field _ _ _ Hid), Hs1, Hfile, Hs2, Hs3.
    unfold id_of. by rewrite Hid.
  - destruct (update_status_code_and_body_loop_accepted status_code body
                body_file_name ms [] w) as (ms' & Hloop & Hall); [done..|].
    exists ms'. rewrite Hloop. by fold (after w (writes ms')).
  - destruct (update_status_code_and_body_loop_changes [("status", status_code)]
                status_code body body_file_name ms [] w) as (ms' & -> & Hall);
      [|done..|by exists ms'].
    intros m [[id Hid] Hresp].
    destruct (store2_response [] "status" status_code m m) as (m1 & Hs1 & Hc1);
      [by apply response_changed_nil|].
    exists m1. split; [|exact Hc1].
    unfold set_status_code_and_body, mbind, st_bind, mret, st_ret.
    rewrite (load_field _ _ _ Hid), Hs1, Hfile, Hbody.
    unfold id_of. by rewrite Hid.
Qed.

Lemma body_file_wins_over_body_witness :
  ∃ ms',
    update_status_code_and_body (interpreter := ascii_interpreter)
      (VList [get_x; post_y]) (VInt 503) (VStr "down")
      (VStr "down.json") (stub_world [get_x; post_y])
    = (Ok (VList (id_of <$> [get_x; post_y])), VList ms',
       after (stub_world [get_x; post_y]) (writes ms'))
    ∧ Forall2 (response_changed [("body", VNone); ("bodyFileName", VStr "down.json");
                                 ("status", VInt 503)]) [get_x; post_y] ms'.
Proof.
  destruct (body_file_wins_over_body (interpreter := ascii_interpreter)
              [get_x; post_y] (VInt 503) (VStr "down")
              (VStr "down.json") 503 (stub_world [get_x; post_y]))
    as (ms' & Hrun & Hfile & _).
  - reflexivity.
  - lia.
  - repeat constructor; vm_compute; eauto.
  - apply stub_accepts_writes.
  - exists ms'. split; [exact Hrun | by apply Hfile].
Defined.

(** * More of the actions *)

Section MoreActionProperties.

Context `{Actions.Collaborators}.

(** The driver is built: the parameters have a url and a timeout. *)
Lemma wiremock_built (params : value) :
  is_Some (field params "url") →
  is_Some (field params "timeout") →
  Actions.wiremock params = Ok tt.
Proof.
  intros [url Hurl] [timeout Htimeout].
  destruct params as [| | | | |d]; try discriminate. cbn [field] in *.
  unfold Actions.wiremock, mbind, result_bind, getitem. by rewrite Hurl, Htimeout.
Qed.


(** [key in d.keys()] by the items of the dict. *)
Lemma has_key_lookup (key : string) (d : list (string * value)) :
  Actions.has_key key d = if lookup_item key d is Some _ then true else false.
Proof.
  unfold Actions.has_key. destruct (lookup_item key d) as [v|] eqn:Hkey.
  - apply bool_decide_eq_true_2, elem_of_keys. by rewrite Hkey.
  - apply bool_decide_eq_false_2. rewrite elem_of_keys, Hkey. by intros [? ?].
Qed.

(** On the driver of the source no filter is looked up: a filter with
    both keys is refused, and on any other the look-up raises, from
    [f.keys()] when the filter is no dict and from the method that the
    driver lacks when it is one. *)
Lemma filter_mappings_on_driver (f : value) (w : World) :
  driver_of_src →
  Actions._filter_mappings f w
  = (Raise (if names_both f then ValueError else AttributeError), w).
Proof.
  intros (Hrequest & Hmetadata & _ & _).
  destruct f as [| | | | |d]; try done.
  unfold Actions._filter_mappings, mbind, st_bind, lift, names_both.
  cbn [keys_of getitem]. rewrite !has_key_lookup.
  destruct (lookup_item "request" d) as [r|];
    destruct (lookup_item "metadata" d) as [m|]; cbn [andb];
    [done | apply Hrequest | apply Hmetadata | apply Hrequest].
Qed.

(** A filter with both keys is refused by every driver. *)
Lemma filter_mappings_both (f : value) (w : World) :
  names_both f = true →
  Actions._filter_mappings f w = (Raise ValueError, w).
Proof.
  destruct f as [| | | | |d]; try done.
  unfold Actions._filter_mappings, mbind, st_bind, lift, names_both.
  cbn [keys_of]. rewrite !has_key_lookup.
  by destruct (lookup_item "request" d), (lookup_item "metadata" d).
Qed.

(** X15: on the driver of [chaoswm/driver.py], [update_mappings_fault]
    never gets to the fault.  With no filter it returns the empty list,
    whatever the fault, a name outside the four too; with a filter it
    raises at the first one, [ValueError] when that filter has both a
    [request] and a [metadata] key and [AttributeError] else, since the
    driver has no [mappings_by_request] and no [mappings_by_metadata].
    Nothing is asked of the server and nothing is written. *)
Theorem update_mappings_fault_stops_at_lookup
    (filter fault configuration params : value) (fs : list value) (w : World) :
  driver_of_src →
  Actions.get_wm_params configuration = Ok params →
  Actions.wiremock params = Ok tt →
  iter filter = Ok fs →
  Actions.update_mappings_fault filter fault configuration w
  = match fs with
    | [] => (Ok (VList []), w)
    | f :: _ => (Raise (if names_both f then ValueError else AttributeError), w)
    end.
Proof.
  intros Hsrc Hparams Hdriver Hfs.
  unfold Actions.update_mappings_fault, mbind, st_bind, lift.
  rewrite Hparams, Hdriver, Hfs.
  destruct fs as [|f rest]; [done|].
  cbn [Actions.resolve]. unfold mbind, st_bind.
  by rewrite (filter_mappings_on_driver f w Hsrc).
Qed.

(** The look-up of a list of filters is the look-up of its first part,
    then of the rest. *)
Lemma resolve_app (fs1 fs2 acc : list value) (w : World) :
  Actions.resolve (fs1 ++ fs2) acc w
  = match Actions.resolve fs1 acc w with
    | (Ok acc', w') => Actions.resolve fs2 acc' w'
    | (Raise e, w') => (Raise e, w')
    end.
Proof.
  revert acc w. induction fs1 as [|f fs1 IH]; intros acc w; [done|].
  cbn [app Actions.resolve]. unfold mbind, st_bind.
  destruct (Actions._filter_mappings f w) as [[found|e] w1]; [|done].
  destruct (truthy found); [|apply IH].
  unfold lift. destruct (iter found); [apply IH | done].
Qed.

(** X16: a filter with both a [request] and a [metadata] key stops
    [fixed_delay] and [update_mappings_fault] with [ValueError] when it
    is the first filter, on every driver: nothing is asked of the server,
    no filter after it is looked up and the driver is not asked to write.
    On the driver of [chaoswm/driver.py] that is the one place where it
    does: when another filter comes first, the two actions raise
    [AttributeError] at that filter and do not get to the one with both
    keys. *)
Theorem invalid_filter_stops_the_action (configuration params v f : value)
    (rest : list value) (w : World) :
  Actions.get_wm_params configuration = Ok params →
  Actions.wiremock params = Ok tt →
  (names_both f = true →
   Actions.fixed_delay (VList (f :: rest)) v configuration w = (Raise ValueError, w)
   ∧ Actions.update_mappings_fault (VList (f :: rest)) v configuration w
     = (Raise ValueError, w))
  ∧ (driver_of_src → names_both f = false →
     Actions.fixed_delay (VList (f :: rest)) v configuration w
     = (Raise AttributeError, w)
     ∧ Actions.update_mappings_fault (VList (f :: rest)) v configuration w
       = (Raise AttributeError, w)).
Proof.
  intros Hparams Hdriver.
  assert (∀ e, Actions._filter_mappings f w = (Raise e, w) →
               Actions.fixed_delay (VList (f :: rest)) v configuration w = (Raise e, w)
               ∧ Actions.update_mappings_fault (VList (f :: rest)) v configuration w
                 = (Raise e, w)) as Hstops.
  { intros e Hraise.
    unfold Actions.fixed_delay, Actions.update_mappings_fault, mbind, st_bind, lift.
    rewrite Hparams, Hdriver. cbn [iter Actions.resolve]. unfold mbind, st_bind.
    by rewrite Hraise. }
  split.
  - intros Hboth. by apply Hstops, filter_mappings_both.
  - intros Hsrc Hboth. apply Hstops.
    by rewrite (filter_mappings_on_driver f w Hsrc), Hboth.
Qed.

Lemma to_update_raises (fs : list value) (w : World) :
  ∃ e w', (n ← Actions.to_update fs VNone; lift (len n)) w = (Raise e, w').
Proof.
  destruct fs as [|f fs].
  - by exists TypeError, w.
  - cbn [Actions.to_update]. unfold mbind, st_bind.
    destruct (Actions.mapping_by_request f w) as [[mapping|e] w1]; [|eauto].
    destruct (is_none mapping) eqn:Hnone.
    + destruct mapping; try discriminate. by exists TypeError, w1.
    + by exists AttributeError, w1.
Qed.

(** X17: [update_mappings_status_code] cannot end well.  Past its two
    guards, on a configuration that holds and a status code that is not
    empty, it raises, whatever the filters and whatever the server:
    [mappings_to_update] is [None], which has neither [append] nor a
    length.  It never returns and never calls [update_status_code]. *)
Theorem update_mappings_status_code_always_raises
    (status_code filter configuration : value) (w : World) :
  truthy (Actions.check_configuration configuration) = true →
  truthy status_code = true →
  ∃ e w',
    Actions.update_mappings_status_code status_code filter configuration w
    = (Raise e, w').
Proof.
  intros Hconf Hstatus. unfold Actions.update_mappings_status_code.
  rewrite Hconf, Hstatus. cbn [negb].
  unfold mbind at 1, st_bind at 1, lift at 1.
  destruct (Actions.get_wm_params configuration) as [params|e]; [|eauto].
  unfold mbind at 1, st_bind at 1, lift at 1.
  destruct (Actions.wiremock params) as [[]|e]; [|eauto].
  unfold mbind at 1, st_bind at 1, lift at 1.
  destruct (iter filter) as [fs|e]; [|eauto].
  destruct (to_update_raises fs w) as (e & w' & Hraise).
  unfold mbind, st_bind in Hraise |- *.
  destruct (Actions.to_update fs VNone w) as [[n|e'] w1]; [|eauto].
  unfold lift in Hraise |- *. destruct (len n); [done | eauto].
Qed.

Lemma for_each_ext (op op' : value → ST World value) (fs updated : list value)
    (w : World) :
  (∀ f w, op f w = op' f w) →
  Actions.for_each op fs updated w = Actions.for_each op' fs updated w.
Proof.
  intros Hext. revert updated w.
  induction fs as [|f fs IH]; intros updated w; [done|].
  cbn [Actions.for_each]. unfold mbind, st_bind. rewrite Hext.
  destruct (op' f w) as [[r|e] w1]; [apply IH | done].
Qed.


(** X18: without a delay under [wiremock.defaults.down] in the
    configuration, [down] returns the empty list and asks the server
    nothing, whatever the filters. *)
Theorem down_without_default (filter params : value) (c : list (string * value))
    (w : World) :
  Actions.get_wm_params (VDict c) = Ok params →
  Actions.wiremock params = Ok tt →
  lookup_item "wiremock" c = None
  ∨ (∃ conf, lookup_item "wiremock" c = Some (VDict conf)
             ∧ (lookup_item "defaults" conf = None
                ∨ ∃ defaults, lookup_item "defaults" conf = Some (VDict defaults)
                              ∧ lookup_item "down" defaults = None)) →
  Actions.down filter (VDict c) w = (Ok (VList []), w).
Proof.
  intros Hparams Hdriver Hmissing.
  assert (∀ key d, lookup_item key d = None → bool_decide (key ∈ keys d) = false)
    as Hnot.
  { intros key d Hkey. apply bool_decide_eq_false_2. rewrite elem_of_keys, Hkey.
    by intros [? ?]. }
  assert (∀ key d v, lookup_item key d = Some v → bool_decide (key ∈ keys d) = true)
    as Hin.
  { intros key d v Hkey. apply bool_decide_eq_true_2, elem_of_keys. eauto. }
  unfold Actions.down, mbind, st_bind, lift, get_or.
  rewrite Hparams, Hdriver.
  destruct Hmissing as [Hw|(conf & -> & [Hd|(defaults & Hd & Hdown)])]; cbn [default from_option id contains].
  - by rewrite Hw.
  - by rewrite (Hnot _ _ Hd).
  - by rewrite (Hin _ _ _ Hd), Hd; cbn [negb default from_option id contains]; rewrite (Hnot _ _ Hdown).
Qed.

(** X19: [down] is [chunked_dribble_delay] with the delay of the
    configuration: with a delay under [wiremock.defaults.down], [down]
    does on every filter what the action [chunked_dribble_delay] does
    with that delay, and returns the same. *)
Theorem down_is_chunked_dribble_delay (filter delay : value)
    (c conf defaults : list (string * value)) (w : World) :
  lookup_item "wiremock" c = Some (VDict conf) →
  lookup_item "defaults" conf = Some (VDict defaults) →
  lookup_item "down" defaults = Some delay →
  Actions.down filter (VDict c) w
  = Actions.chunked_dribble_delay filter delay (VDict c) w.
Proof.
  intros Hw Hd Hdown.
  unfold Actions.down, Actions.chunked_dribble_delay, mbind, st_bind, lift, get_or.
  destruct (Actions.get_wm_params (VDict c)) as [params|]; [|done].
  destruct (Actions.wiremock params) as [[]|]; [|done].
  rewrite Hw. cbn [default from_option id contains].
  rewrite bool_decide_eq_true_2 by (apply elem_of_keys; eauto). cbn [negb].
  rewrite Hd. cbn [default from_option id contains].
  rewrite bool_decide_eq_true_2 by (apply elem_of_keys; eauto). cbn [negb].
  destruct (iter filter) as [fs|]; [|done].
  apply for_each_ext. intros f w0. unfold getitem. by rewrite Hdown.
Qed.


End MoreActionProperties.


Lemma src_collaborators_driver_of_src : @driver_of_src src_collaborators.
Proof. by repeat split. Qed.

Lemma update_mappings_fault_stops_at_lookup_witness :
  @Actions.update_mappings_fault src_collaborators
    (VList []) (VStr "NOT_A_FAULT") stub_configuration (stub_world [get_x; post_y])
  = (Ok (VList []), stub_world [get_x; post_y])
  ∧ @Actions.update_mappings_fault src_collaborators
      (VList [VDict [("method", VStr "GET")]]) (VStr "EMPTY_RESPONSE")
      stub_configuration (stub_world [get_x; post_y])
    = (Raise AttributeError, stub_world [get_x; post_y]).
Proof.
  split.
  - apply (@update_mappings_fault_stops_at_lookup src_collaborators (VList [])
             (VStr "NOT_A_FAULT") stub_configuration stub_configuration []
             (stub_world [get_x; post_y]) src_collaborators_driver_of_src
             eq_refl eq_refl eq_refl).
  - apply (@update_mappings_fault_stops_at_lookup src_collaborators
             (VList [VDict [("method", VStr "GET")]])
             (VStr "EMPTY_RESPONSE") stub_configuration stub_configuration
             [VDict [("method", VStr "GET")]]
             (stub_world [get_x; post_y]) src_collaborators_driver_of_src
             eq_refl eq_refl eq_refl).
Defined.

Lemma invalid_filter_stops_the_action_witness :
  @Actions.fixed_delay src_collaborators
    (VList [VDict [("request", VDict []); ("metadata", VDict [])];
            VDict [("method", VStr "POST")]])
    (VInt 300) stub_configuration (stub_world [get_x; post_y])
  = (Raise ValueError, stub_world [get_x; post_y])
  ∧ @Actions.fixed_delay src_collaborators
      (VList [VDict [("method", VStr "GET")];
              VDict [("request", VDict []); ("metadata", VDict [])]])
      (VInt 300) stub_configuration (stub_world [get_x; post_y])
    = (Raise AttributeError, stub_world [get_x; post_y]).
Proof.
  split.
  - apply (proj1 (proj1 (@invalid_filter_stops_the_action src_collaborators
                    stub_configuration stub_configuration (VInt 300)
                    (VDict [("request", VDict []); ("metadata", VDict [])])
                    [VDict [("method", VStr "POST")]]
                    (stub_world [get_x; post_y]) eq_refl eq_refl) eq_refl)).
  - apply (proj1 (proj2 (@invalid_filter_stops_the_action src_collaborators
                    stub_configuration stub_configuration (VInt 300)
                    (VDict [("method", VStr "GET")])
                    [VDict [("request", VDict []); ("metadata", VDict [])]]
                    (stub_world [get_x; post_y]) eq_refl eq_refl)
                    src_collaborators_driver_of_src eq_refl)).
Defined.

Lemma update_mappings_status_code_always_raises_witness :
  ∃ e w',
    @Actions.update_mappings_status_code stub_collaborators (VStr "404")
      (VList [VDict [("url", VStr "/z")]]) stub_configuration (stub_world [get_x])
    = (Raise e, w').
Proof.
  apply (@update_mappings_status_code_always_raises stub_collaborators); reflexivity.
Defined.

Lemma down_without_default_witness :
  @Actions.down stub_collaborators (VList [VDict [("method", VStr "GET")]])
    stub_configuration (stub_world [get_x])
  = (Ok (VList []), stub_world [get_x]).
Proof.
  apply (@down_without_default stub_collaborators _ stub_configuration).
  - reflexivity.
  - reflexivity.
  - by left.
Defined.

Lemma down_is_chunked_dribble_delay_witness :
  @Actions.down stub_collaborators
    (VList [VDict [("method", VStr "GET"); ("url", VStr "/x")]]) down_configuration
    (stub_world [get_x])
  = @Actions.chunked_dribble_delay stub_collaborators
      (VList [VDict [("method", VStr "GET"); ("url", VStr "/x")]])
      (VDict [("numberOfChunks", VInt 5); ("totalDuration", VInt 1000)])
      down_configuration (stub_world [get_x]).
Proof.
  eapply (@down_is_chunked_dribble_delay stub_collaborators); reflexivity.
Defined.


(** * The creation of mappings *)

Lemma posted_nil (w : Admin.World) : posted w [] = w.
Proof. destruct w. unfold posted. simpl. by rewrite app_nil_r. Qed.

Lemma posted_posted (w : Admin.World) (sent sent' : list Admin.call) :
  posted (posted w sent) sent' = posted w (sent ++ sent').
Proof. unfold posted. simpl. by rewrite app_assoc. Qed.

Lemma add_mapping_created (m id : value) (w : Admin.World) :
  created_id (Admin.server w) (Admin.calls w ++ [Admin.PostMapping m]) = Some id →
  Admin.add_mapping m w = (Ok id, posted w [Admin.PostMapping m]) ∧ is_none id = false.
Proof.
  unfold created_id, Admin.add_mapping, mbind, st_bind, Admin.request.
  destruct (Admin.server w _) as [status_code json|]; [|done].
  destruct (Z.eqb_spec status_code 201) as [->|Hne].
  - cbn. destruct (getitem json "id") as [[]|]; by intros [= <-].
  - intros Hsome. exfalso. revert Hsome.
    destruct status_code as [|p|p]; try done.
    do 8 (destruct p as [p|p|]; try done).
Qed.

Lemma populate_loop_created (ms ids new : list value) (w : Admin.World) :
  created_ids (Admin.server w) (Admin.calls w) ms = Some new →
  Admin.populate_loop ms ids w
  = (Ok (VList (ids ++ new)), posted w (Admin.PostMapping <$> ms)).
Proof.
  revert ids new w. induction ms as [|m ms IH]; intros ids new w.
  - intros [= <-]. cbn. by rewrite posted_nil, app_nil_r.
  - cbn [created_ids]. unfold mbind at 1, option_bind at 1.
    destruct (created_id _ _) as [id|] eqn:Hid; [|done].
    unfold mbind at 1, option_bind at 1.
    destruct (created_ids _ _ ms) as [rest|] eqn:Hrest; [|done].
    intros [= <-]. destruct (add_mapping_created _ _ _ Hid) as [Hadd Hsome].
    cbn [Admin.populate_loop]. unfold mbind, st_bind. rewrite Hadd, Hsome. cbn [negb].
    rewrite (IH _ rest); [|exact Hrest].
    rewrite posted_posted, <- app_assoc. done.
Qed.

(** X21: when the server gives an id to each of the mappings, [populate]
    sends every mapping once, in order, and returns the ids the server
    gave, in that order. *)
Theorem populate_returns_ids (ms ids : list value) (w : Admin.World) :
  created_ids (Admin.server w) (Admin.calls w) ms = Some ids →
  Admin.populate (VList ms) w
  = (Ok (VList ids), posted w (Admin.PostMapping <$> ms))
  ∧ length ids = length ms.
Proof.
  intros Hids. split.
  - unfold Admin.populate. by rewrite (populate_loop_created ms [] ids).
  - clear -Hids. revert ids Hids. generalize (Admin.calls w) as sent.
    induction ms as [|m ms IH]; intros sent ids; [by intros [= <-]|].
    cbn [created_ids]. unfold mbind at 1, option_bind at 1.
    destruct (created_id _ _) as [id|]; [|done].
    unfold mbind at 1, option_bind at 1.
    destruct (created_ids _ _ ms) as [rest|] eqn:Hrest; [|done].
    intros [= <-]. cbn [length]. f_equal. by apply (IH _ _ Hrest).
Qed.

Lemma populate_returns_ids_witness :
  Admin.populate (VList [get_x; post_y])
    {| Admin.server := numbering_server; Admin.calls := [] |}
  = (Ok (VList [VInt 1; VInt 2]),
     posted {| Admin.server := numbering_server; Admin.calls := [] |}
       (Admin.PostMapping <$> [get_x; post_y]))
  ∧ length [VInt 1; VInt 2] = length [get_x; post_y].
Proof.
  apply (populate_returns_ids [get_x; post_y] [VInt 1; VInt 2]
           {| Admin.server := numbering_server; Admin.calls := [] |}).
  by vm_compute.
Defined.

Lemma add_mapping_refused (m json : value) (status_code : Z) (w : Admin.World) :
  Admin.server w (Admin.calls w ++ [Admin.PostMapping m]) = Response status_code json →
  status_code ≠ 201 →
  Admin.add_mapping m w = (Ok VNone, posted w [Admin.PostMapping m]).
Proof.
  intros Hanswer Hstatus. unfold Admin.add_mapping, mbind, st_bind, Admin.request.
  by rewrite Hanswer, (proj2 (Z.eqb_neq status_code 201)).
Qed.

Lemma populate_loop_app (pre rest acc new : list value) (w : Admin.World) :
  created_ids (Admin.server w) (Admin.calls w) pre = Some new →
  Admin.populate_loop (pre ++ rest) acc w
  = Admin.populate_loop rest (acc ++ new) (posted w (Admin.PostMapping <$> pre)).
Proof.
  revert acc w new. induction pre as [|x pre IH]; intros acc w new.
  - intros [= <-]. by rewrite posted_nil, app_nil_r.
  - cbn [created_ids]. unfold mbind at 1, option_bind at 1.
    destruct (created_id _ _) as [id|] eqn:Hx; [|done].
    unfold mbind at 1, option_bind at 1.
    destruct (created_ids _ _ pre) as [ids|] eqn:Hids; [|done].
    intros [= <-]. destruct (add_mapping_created _ _ _ Hx) as [Hadd Hsome].
    cbn [app Admin.populate_loop]. unfold mbind at 1, st_bind at 1.
    rewrite Hadd, Hsome. cbn [negb].
    rewrite (IH _ _ ids); [|exact Hids].
    by rewrite posted_posted, <- app_assoc.
Qed.

(** X22: [populate] stops at the first mapping the server does not create
    and takes nothing back.  When the server has given ids to the mappings
    [pre] and answers the next mapping [m] with a status other than 201,
    [populate] returns [None] on [pre], [m] and any mappings [post]:
    [pre] and [m] were sent, [pre] is created, [post] was not sent, and
    the ids of [pre] are not returned. *)
Theorem populate_stops_at_refusal (pre post ids : list value) (m json : value)
    (status_code : Z) (w : Admin.World) :
  created_ids (Admin.server w) (Admin.calls w) pre = Some ids →
  Admin.server w (Admin.calls w ++ (Admin.PostMapping <$> pre) ++ [Admin.PostMapping m])
  = Response status_code json →
  status_code ≠ 201 →
  Admin.populate (VList (pre ++ m :: post)) w
  = (Ok VNone, posted w (Admin.PostMapping <$> (pre ++ [m]))).
Proof.
  intros Hpre Hanswer Hstatus. unfold Admin.populate.
  rewrite (populate_loop_app pre (m :: post) [] ids w Hpre).
  cbn [Admin.populate_loop]. unfold mbind, st_bind.
  rewrite (add_mapping_refused m json status_code);
    [|by cbn [posted Admin.server Admin.calls]; rewrite <- app_assoc|done].
  cbn [is_none negb mret st_ret]. by rewrite posted_posted, fmap_app.
Qed.

Lemma populate_stops_at_refusal_witness :
  Admin.populate
    (VList ([get_x] ++ VDict [("response", VDict [])] :: [post_y]))
    {| Admin.server := numbering_server; Admin.calls := [] |}
  = (Ok VNone,
     posted {| Admin.server := numbering_server; Admin.calls := [] |}
       (Admin.PostMapping <$> ([get_x] ++ [VDict [("response", VDict [])]]))).
Proof.
  apply (populate_stops_at_refusal [get_x] [post_y] [VInt 1] _
           (VDict [("errors", VList [])]) 422).
  - by vm_compute.
  - by vm_compute.
  - done.
Defined.

(** * The limit, and a mapping without a request *)

(** The loop over mappings that pass or fail without raising, as long as
    the limit is not reached: it goes through them all, and goes on from
    there. *)
Lemma filter_mappings_loop_app (p : value → bool) (_filter : value) (strict : bool)
    (pre rest matching_mappings : list value) (limit count : Z) :
  (∀ mapping, mapping ∈ pre → matches mapping _filter strict = Ok (p mapping)) →
  limit ≤ 0 ∨ count + Z.of_nat (length (List.filter p pre)) < limit →
  filter_mappings_loop (pre ++ rest) _filter strict limit matching_mappings count
  = filter_mappings_loop rest _filter strict limit
      (matching_mappings ++ List.filter p pre)
      (count + Z.of_nat (length (List.filter p pre))).
Proof.
  revert matching_mappings count.
  induction pre as [|m pre IH]; intros acc count Hp Hlimit.
  - cbn. by rewrite app_nil_r, Z.add_0_r.
  - cbn [app filter_mappings_loop List.filter].
    rewrite (Hp m); [|apply list_elem_of_here]. cbn [mbind result_bind].
    assert (∀ x, x ∈ pre → matches x _filter strict = Ok (p x)) as Hpre
      by (intros x Hx; apply Hp; by apply list_elem_of_further).
    cbn [List.filter] in Hlimit. destruct (p m).
    + cbn [length] in Hlimit.
      assert ((0 <? limit) && (limit <=? count + 1) = false) as ->.
      { destruct (Z.ltb_spec 0 limit), (Z.leb_spec limit (count + 1)); try done. lia. }
      rewrite IH; [|done|lia]. cbn [length]. rewrite <- app_assoc. cbn [app].
      f_equal. lia.
    + assert ((0 <? limit) && (limit <=? count) = false) as ->.
      { destruct (Z.ltb_spec 0 limit), (Z.leb_spec limit count); try done. lia. }
      by apply IH.
Qed.

Lemma filter_mappings_loop_limited (p : value → bool) (_filter : value) (strict : bool)
    (todo matching_mappings : list value) (limit count : Z) :
  (∀ mapping, mapping ∈ todo → matches mapping _filter strict = Ok (p mapping)) →
  0 ≤ count < limit →
  filter_mappings_loop todo _filter strict limit matching_mappings count
  = Ok (matching_mappings ++ take (Z.to_nat (limit - count)) (List.filter p todo)).
Proof.
  revert matching_mappings count.
  induction todo as [|mapping rest IH]; intros acc count Hp [Hcount0 Hcount].
  - cbn. by rewrite take_nil, app_nil_r.
  - cbn [filter_mappings_loop List.filter].
    rewrite (Hp mapping); [|apply list_elem_of_here]. cbn [mbind result_bind].
    rewrite (proj2 (Z.ltb_lt 0 limit)); [|lia]. cbn [andb].
    assert (∀ m, m ∈ rest → matches m _filter strict = Ok (p m)) as Hrest
      by (intros m Hm; apply Hp; by apply list_elem_of_further).
    destruct (p mapping).
    + assert (Z.to_nat (limit - count) = S (Z.to_nat (limit - (count + 1)))) as ->
        by lia.
      cbn [take]. destruct (Z.leb_spec limit (count + 1)) as [Hle|Hgt].
      * assert (Z.to_nat (limit - (count + 1)) = 0%nat) as -> by lia.
        by rewrite take_0.
      * rewrite IH; [|done|lia]. by rewrite <- app_assoc.
    + rewrite (proj2 (Z.leb_gt limit count)); [|done]. by apply IH.
Qed.

Lemma filter_mappings_loop_no_limit (p : value → bool) (_filter : value) (strict : bool)
    (todo matching_mappings : list value) (limit count : Z) :
  (∀ mapping, mapping ∈ todo → matches mapping _filter strict = Ok (p mapping)) →
  limit ≤ 0 →
  filter_mappings_loop todo _filter strict limit matching_mappings count
  = Ok (matching_mappings ++ List.filter p todo).
Proof.
  intros Hp Hlimit. revert Hp matching_mappings count.
  induction todo as [|m todo IH]; intros Hp acc count.
  - cbn. by rewrite app_nil_r.
  - cbn [filter_mappings_loop List.filter].
    rewrite (Hp m); [|apply list_elem_of_here]. cbn [mbind result_bind].
    rewrite (proj2 (Z.ltb_ge 0 limit)); [|done]. cbn [andb].
    rewrite IH; [|intros x Hx; apply Hp; by apply list_elem_of_further].
    destruct (p m); [by rewrite <- app_assoc | done].
Qed.

(** X23: with a limit above zero [filter_mappings] returns the first
    [limit] mappings that pass, in the order of the listing, and all that
    pass when they are fewer; with a limit of zero or less it returns all
    that pass. *)
Theorem filter_mappings_limit (p : value → bool) (_filter : value) (strict : bool)
    (limit : Z) (ms : list value) (w w' : World) :
  mappings w = (Ok (VList ms), w') →
  (∀ mapping, mapping ∈ ms → matches mapping _filter strict = Ok (p mapping)) →
  filter_mappings _filter strict limit w
  = (Ok (if 0 <? limit then take (Z.to_nat limit) (List.filter p ms)
         else List.filter p ms), w').
Proof.
  intros Hfetch Hp. rewrite (filter_mappings_fetched _ _ _ _ _ _ Hfetch).
  destruct (Z.ltb_spec 0 limit) as [Hpos|Hnone].
  - rewrite (filter_mappings_loop_limited p); [|done|lia].
    by rewrite Z.sub_0_r.
  - by rewrite (filter_mappings_loop_no_limit p).
Qed.

Lemma filter_mappings_limit_witness :
  filter_mappings (VDict []) true 2 (stub_world [get_x; post_y; get_x; post_y])
  = (Ok [get_x; post_y], after (stub_world [get_x; post_y; get_x; post_y]) [GetMappings]).
Proof.
  apply (filter_mappings_limit (λ _, true) (VDict []) true 2
           [get_x; post_y; get_x; post_y]).
  - reflexivity.
  - intros m Hm.
    repeat (apply elem_of_cons in Hm as [->|Hm]; [by vm_compute|]). inversion Hm.
Defined.

(** X24: a listed mapping without a [request] makes the strict filter and
    the exact match raise when they come to it.  [filter_mappings] in
    strict mode raises [AttributeError], for it asks [None] for its keys,
    unless the limit was reached among the mappings before it;
    [mapping_by_request_exact_match] raises [KeyError], unless a mapping
    before it had the request. *)
Theorem mapping_without_request (p : value → bool) (f : list (string * value))
    (pre post : list value) (d : list (string * value)) (limit : Z) (w w' : World) :
  mappings w = (Ok (VList (pre ++ VDict d :: post)), w') →
  lookup_item "request" d = None →
  (∀ mapping, mapping ∈ pre → matches mapping (VDict f) true = Ok (p mapping)) →
  (limit ≤ 0 ∨ Z.of_nat (length (List.filter p pre)) < limit →
   filter_mappings (VDict f) true limit w = (Raise AttributeError, w'))
  ∧ (Forall (request_differs (VDict f)) pre →
     mapping_by_request_exact_match (VDict f) w = (Raise KeyError, w')).
Proof.
  intros Hfetch Hrequest Hp. split.
  - intros Hlimit. rewrite (filter_mappings_fetched _ _ _ _ _ _ Hfetch).
    rewrite (filter_mappings_loop_app p); [|done|by rewrite Z.add_0_l].
    cbn [filter_mappings_loop matches get]. by rewrite Hrequest.
  - intros Hpre. rewrite (exact_match_fetched _ _ _ _ Hfetch). f_equal.
    clear Hfetch Hp.
    induction Hpre as [|x pre (r & Hr & Hne) _ IH]; cbn [app exact_match_loop].
    + unfold getitem. by rewrite Hrequest.
    + rewrite Hr. cbn [mbind result_bind]. by rewrite Hne.
Qed.

Lemma mapping_without_request_witness :
  filter_mappings (VDict [("method", VStr "GET")]) true 0
    (stub_world [get_x; VDict [("id", VInt 3)]; post_y])
  = (Raise AttributeError,
     after (stub_world [get_x; VDict [("id", VInt 3)]; post_y]) [GetMappings])
  ∧ mapping_by_request_exact_match (VDict [("method", VStr "GET")])
      (stub_world [get_x; VDict [("id", VInt 3)]; post_y])
    = (Raise KeyError,
       after (stub_world [get_x; VDict [("id", VInt 3)]; post_y]) [GetMappings]).
Proof.
  pose proof (mapping_without_request (λ _, true) [("method", VStr "GET")]
                [get_x] [post_y] [("id", VInt 3)] 0
                (stub_world [get_x; VDict [("id", VInt 3)]; post_y])
                (after (stub_world [get_x; VDict [("id", VInt 3)]; post_y])
                   [GetMappings])
                eq_refl eq_refl) as Hthm.
  destruct Hthm as [Hstrict Hexact].
  - intros m Hm. apply elem_of_cons in Hm as [->|Hm]; [by vm_compute | inversion Hm].
  - split.
    + apply Hstrict. by left.
    + apply Hexact. repeat constructor. eexists. split; [reflexivity | by vm_compute].
Defined.
